(** * common/buf/buffer.go: the recyclable, windowed byte buffer

    A shallow embedding of [Buffer] and of its methods, followed by the
    properties of the buffer that the specification states.

    Conventions of the embedding.
    - Go's [int32] is a [Z] with the wrap-around of every addition and of
      every conversion written out ([int32]).
    - A [[]byte] is [option (list byte)]: [None] is the nil slice, which
      [Release] tells apart from an empty one.  Every region that this
      package allocates comes from [make([]byte, n)], so its capacity is
      its length; slices are modelled with capacity equal to length.
    - A method that can panic (index or slice bounds out of range,
      [panic("Invalid slice")], [make] with a negative length) returns a
      [result]; [Panic] is the abort.
    - The pool is shared mutable state: the methods that touch it take the
      pool and return the new one.
    - [Endpoint] is not read or written by any function of this file and is
      left out of the record; so is the log line that [Require] emits. *)

From Stdlib Require Import ZArith Lia.
From stdpp Require Import base list.

Open Scope Z_scope.

(** ** Machine integers *)

Definition int32 (z : Z) : Z := (z + 2 ^ 31) mod 2 ^ 32 - 2 ^ 31.

Definition max_int32 : Z := 2 ^ 31 - 1.

Abbreviation byte := Byte.byte (only parsing).

(** ** Panics *)

Inductive result (A : Type) : Type :=
| Ok (a : A)
| Panic.

Arguments Ok {A} a.
Arguments Panic {A}.

#[export] Instance result_ret : MRet result := fun A a => Ok a.

#[export] Instance result_bind : MBind result := fun A B k r =>
  match r with
  | Ok a => k a
  | Panic => Panic
  end.

#[export] Instance result_fmap : FMap result := fun A B f r =>
  match r with
  | Ok a => Ok (f a)
  | Panic => Panic
  end.

(** ** Slices *)

Definition slice : Type := option (list byte).

Definition contents (s : slice) : list byte :=
  match s with
  | Some l => l
  | None => []
  end.

(** [len(s)], a Go [int]. *)
Definition len (s : slice) : Z := Z.of_nat (length (contents s)).

(** [make([]byte, n)] *)
Definition make (n : Z) : result (list byte) :=
  if n <? 0 then Panic else Ok (replicate (Z.to_nat n) Byte.x00).

(** The bytes of [s[lo:hi]]. *)
Definition slice_range (s : slice) (lo hi : Z) : result (list byte) :=
  if (0 <=? lo) && (lo <=? hi) && (hi <=? len s)
  then Ok (take (Z.to_nat (hi - lo)) (drop (Z.to_nat lo) (contents s)))
  else Panic.

(** [s[i]] *)
Definition slice_get (s : slice) (i : Z) : result byte :=
  if (0 <=? i) && (i <? len s)
  then match contents s !! Z.to_nat i with
       | Some x => Ok x
       | None => Panic
       end
  else Panic.

(** [s[i] = x] *)
Definition slice_set (s : slice) (i : Z) (x : byte) : result slice :=
  if (0 <=? i) && (i <? len s)
  then Ok (Some (<[Z.to_nat i := x]> (contents s)))
  else Panic.

(** [copy(dst, src)]: the number of bytes copied and the new bytes of
    [dst]. *)
Definition copy (dst src : list byte) : Z * list byte :=
  let n := Nat.min (length dst) (length src) in
  (Z.of_nat n, take n src ++ drop n dst).

(** [s[lo:lo+len(w)]] aliases [s]: a write through the sub-slice is a write
    to [s].  [store s lo w] is [s] after the sub-slice's bytes became [w]. *)
Definition store (s : slice) (lo : Z) (w : list byte) : slice :=
  match s with
  | None => None
  | Some l =>
      Some (take (Z.to_nat lo) l ++ w ++ drop (Z.to_nat lo + length w) l)
  end.

(** ** The pool *)

(** Size of a regular buffer. *)
Definition Size : Z := 8192.

(** Modelled from the spec: the Fixed-Size Pool ([bytespool.GetPool(Size)],
    whose package is not part of this file).  The spec gives it two
    operations, [acquire() -> region] and [release(region)]; the model is
    the deterministic free list the spec suggests for tests: [pool_Put]
    pushes what it is given, [pool_Get] hands out the region put last, or a
    fresh region of the fixed size when the list is empty. *)
Definition Pool : Type := list slice.

Definition pool_Get (p : Pool) : slice * Pool :=
  match p with
  | r :: p' => (r, p')
  | [] => (Some (replicate (Z.to_nat Size) Byte.x00), [])
  end.

Definition pool_Put (r : slice) (p : Pool) : Pool := r :: p.

(** Every region held by the pool has the pool's fixed size. *)
Definition pool_ok (p : Pool) : Prop :=
  Forall (fun r => is_Some r /\ len r = Size) p.

(** ** The buffer *)

Record Buffer : Type := mkBuffer {
  v : slice;
  start : Z;
  end_ : Z;
  out : bool
}.

Definition set_v (b : Buffer) (x : slice) : Buffer :=
  mkBuffer x (start b) (end_ b) (out b).
Definition set_start (b : Buffer) (x : Z) : Buffer :=
  mkBuffer (v b) x (end_ b) (out b).
Definition set_end (b : Buffer) (x : Z) : Buffer :=
  mkBuffer (v b) (start b) x (out b).
Definition set_out (b : Buffer) (x : bool) : Buffer :=
  mkBuffer (v b) (start b) (end_ b) x.

(** *** Constructors *)

Definition New (p : Pool) : Buffer * Pool :=
  let '(r, p') := pool_Get p in
  (mkBuffer r 0 0 false, p').

Definition As (data : slice) : Buffer := mkBuffer data 0 0 true.

Definition Get (size : Z) (p : Pool) : result (Buffer * Pool) :=
  if size <=? Size then Ok (New p)
  else nb ← make size; Ok (mkBuffer (Some nb) 0 0 true, p).

Definition StackNew (p : Pool) : Buffer * Pool := New p.

(** *** Queries *)

(** [Len] and [IsFull] accept a nil receiver: they take the pointer. *)
Definition Len (pb : option Buffer) : Z :=
  match pb with
  | None => 0
  | Some b => int32 (end_ b - start b)
  end.

Definition IsEmpty (pb : option Buffer) : bool := Len pb =? 0.

Definition IsFull (pb : option Buffer) : bool :=
  match pb with
  | None => false
  | Some b => end_ b =? int32 (len (v b))
  end.

Definition Byte (index : Z) (b : Buffer) : result byte :=
  slice_get (v b) (int32 (start b + index)).

Definition Bytes (b : Buffer) : result (list byte) :=
  slice_range (v b) (start b) (end_ b).

(** *** Release and Clear *)

Definition Clear (b : Buffer) : Buffer := set_end (set_start b 0) 0.

(** The body of [Release] for a non-nil receiver. *)
Definition Release_at (b : Buffer) (p : Pool) : Buffer * Pool :=
  match v b with
  | None => (b, p)
  | Some _ =>
      if out b then (b, p)
      else (Clear (set_v b None), pool_Put (v b) p)
  end.

Definition Release (pb : option Buffer) (p : Pool) : option Buffer * Pool :=
  match pb with
  | None => (None, p)
  | Some b => let '(b', p') := Release_at b p in (Some b', p')
  end.

(** *** Growth *)

(** [copy(b.v[b.start:b.end], nb[b.start:b.end])] has the window of the old
    region as its destination and the window of the new region as its
    source.  The old region, with what the copy wrote into it, is what goes
    back to the pool. *)
Definition Require (requiredLength : Z) (b : Buffer) (p : Pool)
  : result (Buffer * Pool) :=
  if int32 (len (v b)) >=? requiredLength then Ok (b, p)
  else
    nb ← make requiredLength;
    dst ← slice_range (v b) (start b) (end_ b);
    src ← slice_range (Some nb) (start b) (end_ b);
    let old := store (v b) (start b) (snd (copy dst src)) in
    if negb (out b)
    then Ok (set_v (set_out b true) (Some nb), pool_Put old p)
    else Ok (set_v b (Some nb), p).

(** Increases the buffer size by [n] bytes; returns the extended part. *)
Definition Extend (n : Z) (b : Buffer) (p : Pool)
  : result (list byte * Buffer * Pool) :=
  let e := int32 (end_ b + n) in
  '(b1, p1) ← Require e b p;
  ext ← slice_range (v b1) (end_ b1) e;
  Ok (ext, set_end b1 e, p1).

(** *** Views and cursor moves *)

(** [if i < 0 { i += b.Len() }] *)
Definition normalize (b : Buffer) (i : Z) : Z :=
  if i <? 0 then int32 (i + Len (Some b)) else i.

Definition BytesRange (from to : Z) (b : Buffer) : result (list byte) :=
  let from := normalize b from in
  let to := normalize b to in
  slice_range (v b) (int32 (start b + from)) (int32 (start b + to)).

Definition BytesFrom (from : Z) (b : Buffer) : result (list byte) :=
  let from := normalize b from in
  slice_range (v b) (int32 (start b + from)) (end_ b).

Definition BytesTo (to : Z) (b : Buffer) : result (list byte) :=
  let to := normalize b to in
  slice_range (v b) (start b) (int32 (start b + to)).

Definition SetByte (index : Z) (value : byte) (b : Buffer) : result Buffer :=
  v' ← slice_set (v b) (int32 (start b + index)) value;
  Ok (set_v b v').

Definition Resize (from to : Z) (b : Buffer) : result Buffer :=
  let from := normalize b from in
  let to := normalize b to in
  if to <? from then Panic
  else
    let b1 := set_end b (int32 (start b + to)) in
    Ok (set_start b1 (int32 (start b1 + from))).

Definition Advance (from : Z) (b : Buffer) : Buffer :=
  let from := normalize b from in
  set_start b (int32 (start b + from)).

(** *** Stream-style methods *)

Inductive error : Type :=
| EOF                (* io.EOF *)
| ErrUnexpectedEOF   (* io.ErrUnexpectedEOF *)
| ErrBufferFull.     (* newError("buffer full") *)

Definition Write (data : list byte) (b : Buffer) (p : Pool)
  : result (Z * option error * Buffer * Pool) :=
  '(b1, p1) ← Require (int32 (end_ b + int32 (Z.of_nat (length data)))) b p;
  tail ← slice_range (v b1) (end_ b1) (len (v b1));
  let '(nBytes, tail') := copy tail data in
  let b2 := set_v b1 (store (v b1) (end_ b1) tail') in
  Ok (nBytes, None, set_end b2 (int32 (end_ b2 + int32 nBytes)), p1).

Definition From (data : list byte) (p : Pool) : result (Buffer * Pool) :=
  '(buffer, p1) ← Get (int32 (Z.of_nat (length data))) p;
  '(_, _, buffer', p2) ← Write data buffer p1;
  Ok (buffer', p2).

Definition WriteByte (x : byte) (b : Buffer) : result (option error * Buffer) :=
  if IsFull (Some b) then Ok (Some ErrBufferFull, b)
  else
    v' ← slice_set (v b) (end_ b) x;
    let b1 := set_v b v' in
    Ok (None, set_end b1 (int32 (end_ b1 + 1))).

(** A Go string is its bytes. *)
Definition WriteString (s : list byte) (b : Buffer) (p : Pool)
  : result (Z * option error * Buffer * Pool) :=
  Write s b p.

(** [Read] returns the count, the error, the bytes of [data] afterwards and
    the buffer. *)
Definition Read (data : list byte) (b : Buffer)
  : result (Z * option error * list byte * Buffer) :=
  if Len (Some b) =? 0 then Ok (0, Some EOF, data, b)
  else
    src ← slice_range (v b) (start b) (end_ b);
    let '(nBytes, data') := copy data src in
    if int32 nBytes =? Len (Some b)
    then Ok (nBytes, None, data', Clear b)
    else Ok (nBytes, None, data', set_start b (int32 (start b + int32 nBytes))).

(** The [io.Reader] handed to [ReadFrom] and [ReadFullFrom] is a
    collaborator; it is modelled as the bytes it has left to deliver, read
    the way [bytes.Reader] reads. *)
Definition Reader : Type := list byte.

Definition reader_Read (r : Reader) (buf : list byte)
  : Z * option error * list byte * Reader :=
  match r with
  | [] => (0, Some EOF, buf, r)
  | _ =>
      let '(n, buf') := copy buf r in
      (n, None, buf', drop (Z.to_nat n) r)
  end.

(** [io.ReadFull] over such a reader: it reads until [buf] is full or the
    reader is exhausted. *)
Definition io_ReadFull (r : Reader) (buf : list byte)
  : Z * option error * list byte * Reader :=
  let '(n, buf') := copy buf r in
  let err :=
    if n >=? Z.of_nat (length buf) then None
    else if 0 <? n then Some ErrUnexpectedEOF
    else Some EOF in
  (n, err, buf', drop (Z.to_nat n) r).

Definition ReadFrom (reader : Reader) (b : Buffer)
  : result (Z * option error * Buffer * Reader) :=
  tail ← slice_range (v b) (end_ b) (len (v b));
  let '(n, err, tail', reader') := reader_Read reader tail in
  let b1 := set_v b (store (v b) (end_ b) tail') in
  Ok (n, err, set_end b1 (int32 (end_ b1 + int32 n)), reader').

Definition ReadFullFrom (reader : Reader) (size : Z) (b : Buffer) (p : Pool)
  : result (Z * option error * Buffer * Pool * Reader) :=
  let e := int32 (end_ b + size) in
  '(b1, p1) ← Require e b p;
  buf ← slice_range (v b1) (end_ b1) e;
  let '(n, err, buf', reader') := io_ReadFull reader buf in
  let b2 := set_v b1 (store (v b1) (end_ b1) buf') in
  Ok (n, err, set_end b2 (int32 (end_ b2 + int32 n)), p1, reader').

Definition String (b : Buffer) : result (list byte) := Bytes b.

(** ** Sequences of calls *)

(** The methods that change a buffer, as the calls of a client.  The state
    is the buffer together with the pool; what a call returns besides is
    dropped. *)
Inductive op : Type :=
| OpRelease
| OpClear
| OpSetByte (index : Z) (value : byte)
| OpRequire (requiredLength : Z)
| OpExtend (n : Z)
| OpResize (from to : Z)
| OpAdvance (from : Z)
| OpWrite (data : list byte)
| OpWriteByte (x : byte)
| OpWriteString (s : list byte)
| OpRead (data : list byte)
| OpReadFrom (reader : Reader)
| OpReadFullFrom (reader : Reader) (size : Z).

Definition state : Type := Buffer * Pool.

Definition step (o : op) (s : state) : result state :=
  let '(b, p) := s in
  match o with
  | OpRelease => Ok (Release_at b p)
  | OpClear => Ok (Clear b, p)
  | OpSetByte i x => b' ← SetByte i x b; Ok (b', p)
  | OpRequire n => Require n b p
  | OpExtend n => '(_, b', p') ← Extend n b p; Ok (b', p')
  | OpResize from to => b' ← Resize from to b; Ok (b', p)
  | OpAdvance from => Ok (Advance from b, p)
  | OpWrite data => '(_, _, b', p') ← Write data b p; Ok (b', p')
  | OpWriteByte x => '(_, b') ← WriteByte x b; Ok (b', p)
  | OpWriteString s => '(_, _, b', p') ← WriteString s b p; Ok (b', p')
  | OpRead data => '(_, _, _, b') ← Read data b; Ok (b', p)
  | OpReadFrom r => '(_, _, b', _) ← ReadFrom r b; Ok (b', p)
  | OpReadFullFrom r n => '(_, _, b', p', _) ← ReadFullFrom r n b p; Ok (b', p')
  end.

(** [WriteByte] called once for each byte of [xs], in order; the errors
    returned, in order, and the buffer afterwards. *)
Fixpoint WriteByte_each (xs : list byte) (b : Buffer)
  : result (list (option error) * Buffer) :=
  match xs with
  | [] => Ok ([], b)
  | x :: xs' =>
      '(e, b1) ← WriteByte x b;
      '(es, b2) ← WriteByte_each xs' b1;
      Ok (e :: es, b2)
  end.

Fixpoint run (os : list op) (s : state) : result state :=
  match os with
  | [] => Ok s
  | o :: os' => s' ← step o s; run os' s'
  end.

(** ** The window invariant *)

Definition window_inv (b : Buffer) : Prop :=
  0 <= start b /\ start b <= end_ b /\ end_ b <= len (v b).

(** The region's length is a value of the [int32] the cursors have. *)
Definition wf (b : Buffer) : Prop :=
  window_inv b /\ len (v b) <= max_int32.

(** What a call must be given for the invariant to survive it.  [Advance]
    and [Resize] move the cursors by their (normalised) arguments and check
    neither against the window nor against the region; [Require] takes an
    [int32]. *)
Definition arg_ok (o : op) (b : Buffer) : Prop :=
  match o with
  | OpAdvance from =>
      0 <= normalize b from /\ normalize b from <= Len (Some b)
  | OpResize from to =>
      0 <= normalize b from /\ normalize b to <= len (v b) - start b
  | OpRequire n => n <= max_int32
  | _ => True
  end.

(** [calls s os ss]: from state [s] the calls [os] complete one after the
    other, each given arguments that are [arg_ok]; [ss] lists the state
    after each call. *)
Inductive calls : state -> list op -> list state -> Prop :=
| calls_nil s : calls s [] []
| calls_cons o os s s1 ss :
    arg_ok o (fst s) ->
    step o s = Ok s1 ->
    calls s1 os ss ->
    calls s (o :: os) (s1 :: ss).

(** The ways a buffer comes to be outside the pool: wrapped around
    caller-owned bytes, created larger than the pool's fixed size, grown by
    [Require], or simply found with the flag set. *)
Inductive not_recyclable : state -> Prop :=
| nr_As data p :
    not_recyclable (As data, p)
| nr_Get size p b p' :
    Size < size -> Get size p = Ok (b, p') ->
    not_recyclable (b, p')
| nr_Require n b p b' p' :
    int32 (len (v b)) < n -> Require n b p = Ok (b', p') ->
    not_recyclable (b', p')
| nr_out b p :
    out b = true ->
    not_recyclable (b, p).

(** ** Indices and pool accounting *)

(** The position an index denotes in a window of length [L]: a negative
    index counts back from the end. *)
Definition position (L i : Z) : Z := if i <? 0 then i + L else i.

(** The number of regions, that is of slices that are not nil, and the
    number of nil slices among the slices of a pool. *)
Fixpoint regions (p : Pool) : nat :=
  match p with
  | [] => 0
  | Some _ :: p' => S (regions p')
  | None :: p' => regions p'
  end.

Fixpoint nils (p : Pool) : nat :=
  match p with
  | [] => 0
  | Some _ :: p' => nils p'
  | None :: p' => S (nils p')
  end.

(** What a buffer can still hand to the pool: one region while it is
    recyclable and holds one, and one nil slice while it is recyclable. *)
Definition regions_left (b : Buffer) : nat :=
  if out b then 0 else match v b with Some _ => 1 | None => 0 end.

Definition nils_left (b : Buffer) : nat :=
  if out b then 0 else 1.

(** Between two states of a buffer: [added] was put on top of the pool,
    and the buffer's allowances shrank by as much. *)
Definition paid (b : Buffer) (p : Pool) (b' : Buffer) (p' : Pool) : Prop :=
  exists added,
    p' = added ++ p /\
    (regions added + regions_left b' <= regions_left b)%nat /\
    (nils added + nils_left b' <= nils_left b)%nat.

(** The old region as [Require] leaves it when it replaces it: the bytes
    of the window [[start, end)] are overwritten with zero bytes, the rest
    is as it was.  A nil region stays nil. *)
Definition wiped_region (b : Buffer) : slice :=
  match v b with
  | None => None
  | Some l =>
      Some (take (Z.to_nat (start b)) l ++
            replicate (Z.to_nat (end_ b - start b)) Byte.x00 ++
            drop (Z.to_nat (end_ b)) l)
  end.

(** * Properties *)

Arguments Len : simpl never.
Arguments IsFull : simpl never.
Arguments int32 : simpl never.

(** Case analysis on the comparisons of the code. *)
Ltac bool_cases :=
  repeat match goal with
    | |- context [?a <=? ?b] => destruct (Z.leb_spec a b)
    | |- context [?a <? ?b] => destruct (Z.ltb_spec a b)
    | |- context [?a =? ?b] => destruct (Z.eqb_spec a b)
    | |- context [?a >=? ?b] => rewrite (Z.geb_leb a b)
    | H : context [?a <=? ?b] |- _ => destruct (Z.leb_spec a b)
    | H : context [?a <? ?b] |- _ => destruct (Z.ltb_spec a b)
    | H : context [?a =? ?b] |- _ => destruct (Z.eqb_spec a b)
    | H : context [?a >=? ?b] |- _ => rewrite (Z.geb_leb a b) in H
    end.


(** ** Arithmetic and list facts *)

Lemma int32_id z : - 2 ^ 31 <= z <= max_int32 -> int32 z = z.
Proof.
  unfold int32, max_int32. intros H.
  rewrite Z.mod_small; lia.
Qed.

Lemma int32_range z : - 2 ^ 31 <= int32 z <= max_int32.
Proof.
  unfold int32, max_int32.
  pose proof (Z.mod_pos_bound (z + 2 ^ 31) (2 ^ 32)). lia.
Qed.

Lemma len_Some (l : list byte) : len (Some l) = Z.of_nat (length l).
Proof. reflexivity. Qed.

Lemma len_nonneg s : 0 <= len s.
Proof. unfold len. lia. Qed.

Lemma copy_length (dst src : list byte) :
  length (snd (copy dst src)) = length dst.
Proof.
  unfold copy. simpl. rewrite length_app, length_take, length_drop. lia.
Qed.

Lemma copy_count (dst src : list byte) :
  fst (copy dst src) = Z.min (Z.of_nat (length dst)) (Z.of_nat (length src)).
Proof. unfold copy. simpl. lia. Qed.

Lemma slice_range_Ok s lo hi l :
  slice_range s lo hi = Ok l ->
  0 <= lo /\ lo <= hi /\ hi <= len s /\
  l = take (Z.to_nat (hi - lo)) (drop (Z.to_nat lo) (contents s)).
Proof.
  unfold slice_range. intros H. bool_cases; simpl in H; try discriminate.
  inversion H. repeat split; lia.
Qed.

Lemma slice_range_in s lo hi :
  0 <= lo -> lo <= hi -> hi <= len s ->
  slice_range s lo hi =
    Ok (take (Z.to_nat (hi - lo)) (drop (Z.to_nat lo) (contents s))).
Proof.
  intros. unfold slice_range. bool_cases; try lia. reflexivity.
Qed.

Lemma slice_range_length s lo hi l :
  slice_range s lo hi = Ok l -> Z.of_nat (length l) = hi - lo.
Proof.
  intros H. apply slice_range_Ok in H as (? & ? & ? & ->).
  rewrite length_take, length_drop. unfold len in *. lia.
Qed.

Lemma store_len s lo w :
  0 <= lo -> lo + Z.of_nat (length w) <= len s -> len (store s lo w) = len s.
Proof.
  destruct s as [l|]; [|done]. unfold len. simpl. intros.
  rewrite !length_app, length_take, length_drop. lia.
Qed.

Lemma make_Ok n l :
  make n = Ok l -> 0 <= n /\ l = replicate (Z.to_nat n) Byte.x00.
Proof.
  unfold make. intros H. bool_cases; inversion H. split; [lia | done].
Qed.

Lemma bind_Ok {A B} (r : result A) (k : A -> result B) y :
  r ≫= k = Ok y -> exists x, r = Ok x /\ k x = Ok y.
Proof. destruct r; [eauto | discriminate]. Qed.

(** ** Growth *)

(** What [Require] leaves when it replaces the region: the cursors stay,
    the new region has exactly the required length, and the window reads
    as the zero bytes of the fresh allocation. *)
Lemma Require_grown_window n b p b' p' :
  int32 (len (v b)) < n ->
  Require n b p = Ok (b', p') ->
  start b' = start b /\ end_ b' = end_ b /\ len (v b') = n /\
  Bytes b' = Ok (replicate (Z.to_nat (end_ b - start b)) Byte.x00).
Proof.
  intros Hlt H. unfold Require in H.
  destruct (int32 (len (v b)) >=? n) eqn:E.
  { rewrite Z.geb_leb in E. apply Z.leb_le in E. lia. }
  apply bind_Ok in H as (nb & Hnb & H).
  apply bind_Ok in H as (dst & Hdst & H).
  apply bind_Ok in H as (src & Hsrc & H).
  apply make_Ok in Hnb as [Hn ->].
  assert (Hb' : start b' = start b /\ end_ b' = end_ b /\
                v b' = Some (replicate (Z.to_nat n) Byte.x00)).
  { destruct (out b); inversion H; done. }
  destruct Hb' as (Hs & He & Hv).
  unfold Bytes. rewrite Hs, He, Hv, Hsrc.
  apply slice_range_Ok in Hsrc as (? & ? & Hhi & ->).
  rewrite len_Some, length_replicate in *.
  repeat split; try lia.
  simpl. rewrite drop_replicate, take_replicate. do 2 f_equal. lia.
Qed.

(** C1 (the code departs from the specification).  A fresh pool buffer
    receives [1, 2, 3]; its region has 8192 bytes.  Growing it, by [Require(8193)]
    or by a second [Write] of 8190 bytes, keeps the cursors and sizes the
    new region to exactly what was required, but the window reads back with
    zero bytes where [1, 2, 3] were: the content written before the growth
    step is lost. *)
Theorem Require_growth_loses_content :
  let data := [Byte.x01; Byte.x02; Byte.x03] in
  let more := replicate (Z.to_nat 8190) Byte.x04 in
  let shape (s : state) :=
    (len (v (fst s)), start (fst s), end_ (fst s), out (fst s)) in
  (s ← run [OpWrite data] (New []); Bytes (fst s)) = Ok data /\
  shape <$> run [OpWrite data] (New []) = Ok (8192, 0, 3, false) /\
  (s ← run [OpWrite data; OpRequire 8193] (New []); Bytes (fst s))
    = Ok [Byte.x00; Byte.x00; Byte.x00] /\
  shape <$> run [OpWrite data; OpRequire 8193] (New [])
    = Ok (8193, 0, 3, true) /\
  (s ← run [OpWrite data; OpWrite more] (New []); Bytes (fst s))
    = Ok ([Byte.x00; Byte.x00; Byte.x00] ++ more) /\
  shape <$> run [OpWrite data; OpWrite more] (New [])
    = Ok (8193, 0, 8193, true).
Proof.
  split_and!; vm_compute; reflexivity.
Qed.

(** ** Release *)

(** C3 (as stated, false).  A buffer wrapped around caller-owned bytes whose
    window was set to the three bytes: [Release] leaves [end] and the
    length at 3. *)
Lemma Release_wrapped_keeps_cursors :
  let b := mkBuffer (Some [Byte.x01; Byte.x02; Byte.x03]) 0 3 true in
  Resize 0 3 (As (Some [Byte.x01; Byte.x02; Byte.x03])) = Ok b /\
  out b = true /\
  ~ (let b' := fst (Release_at b []) in
     start b' = 0 /\ end_ b' = 0 /\ Len (Some b') = 0).
Proof.
  repeat split. intros (_ & H & _). vm_compute in H. discriminate.
Qed.

(** C3 (amended).  On a buffer whose region is not pool-owned, [Release]
    changes nothing: region, cursors and flag are as before and the pool
    receives nothing. *)
Theorem Release_not_recyclable b p :
  out b = true -> Release (Some b) p = (Some b, p).
Proof.
  intros H. unfold Release, Release_at. rewrite H. by destruct (v b).
Qed.

Lemma Release_not_recyclable_witness :
  Release (Some (As (Some [Byte.x01]))) [] = (Some (As (Some [Byte.x01])), []).
Proof. apply Release_not_recyclable. reflexivity. Defined.

(** C5.  [Release] returns for every receiver, the nil one included; a
    second [Release] changes neither the buffer nor the pool; over both
    calls the pool receives the region of the buffer once or not at
    all. *)
Theorem Release_idempotent (pb : option Buffer) (p : Pool) :
  exists pb1 p1,
    Release pb p = (pb1, p1) /\
    Release pb1 p1 = (pb1, p1) /\
    (pb = None -> pb1 = None /\ p1 = p) /\
    (p1 = p \/ exists b, pb = Some b /\ out b = false /\ is_Some (v b) /\
                         p1 = pool_Put (v b) p) /\
    (forall b, pb = Some b -> exists s, step OpRelease (b, p) = Ok s).
Proof.
  destruct pb as [b|]; simpl.
  - unfold Release_at. destruct (v b) as [r|] eqn:Hv.
    + destruct (out b) eqn:Ho.
      * exists (Some b), p. simpl. unfold Release_at. rewrite Hv, Ho.
        repeat split; eauto; done.
      * eexists _, _. split; [reflexivity|]. simpl.
        repeat split; eauto; try done.
        right. exists b. rewrite Hv. eauto.
    + exists (Some b), p. simpl. unfold Release_at. rewrite Hv.
      repeat split; eauto; done.
  - exists None, p. repeat split; eauto; done.
Qed.

(** C10.  After [Release] has recycled the region of a pool-backed buffer
    the handle holds no region: [Len] is 0, [IsFull] is true and
    [WriteByte] returns the buffer-full error without a write.  [IsFull] of
    a nil buffer is false. *)
Theorem released_handle_queries b p r :
  v b = Some r -> out b = false ->
  exists b',
    Release (Some b) p = (Some b', pool_Put (Some r) p) /\
    v b' = None /\
    Len (Some b') = 0 /\
    IsFull (Some b') = true /\
    (forall x, WriteByte x b' = Ok (Some ErrBufferFull, b')) /\
    IsFull None = false.
Proof.
  intros Hv Ho. unfold Release, Release_at. rewrite Hv, Ho.
  eexists. split; [reflexivity|]. repeat split.
Qed.

Lemma released_handle_queries_witness :
  exists b',
    Release (Some (fst (New []))) [] =
      (Some b', pool_Put (Some (replicate (Z.to_nat Size) Byte.x00)) []) /\
    v b' = None /\
    Len (Some b') = 0 /\
    IsFull (Some b') = true /\
    (forall x, WriteByte x b' = Ok (Some ErrBufferFull, b')) /\
    IsFull None = false.
Proof.
  apply (released_handle_queries (fst (New [])) []
           (replicate (Z.to_nat Size) Byte.x00));
    reflexivity.
Defined.

(** ** Construction *)

(** C9.  [Get size] with [size] within the pool's fixed size is [New]: its
    region is the one the pool hands out, the buffer is recyclable and
    empty.  With a larger [size] the region is a fresh one of exactly
    [size] bytes, the buffer is not recyclable and empty, and the pool is
    untouched. *)
Theorem Get_sized size p :
  (size <= Size ->
   Get size p = Ok (New p) /\
   v (fst (New p)) = fst (pool_Get p) /\
   out (fst (New p)) = false /\
   Len (Some (fst (New p))) = 0) /\
  (Size < size ->
   exists b,
     Get size p = Ok (b, p) /\
     v b = Some (replicate (Z.to_nat size) Byte.x00) /\
     len (v b) = size /\
     out b = true /\
     Len (Some b) = 0).
Proof.
  unfold Get, Size. split; intros H.
  - destruct (Z.leb_spec size 8192); [|lia].
    unfold New. destruct (pool_Get p). done.
  - destruct (Z.leb_spec size 8192); [lia|].
    unfold make. destruct (Z.ltb_spec size 0); [lia|].
    eexists. split; [reflexivity|]. simpl.
    rewrite len_Some, length_replicate. repeat split. lia.
Qed.

Lemma Get_sized_witness :
  (Get 100 [] = Ok (New []) /\
   v (fst (New [])) = fst (pool_Get []) /\
   out (fst (New [])) = false /\
   Len (Some (fst (New []))) = 0) /\
  (exists b,
     Get 20000 [] = Ok (b, []) /\
     v b = Some (replicate (Z.to_nat 20000) Byte.x00) /\
     len (v b) = 20000 /\
     out b = true /\
     Len (Some b) = 0).
Proof.
  split.
  - apply (proj1 (Get_sized 100 [])). unfold Size. lia.
  - apply (proj2 (Get_sized 20000 [])). unfold Size. lia.
Defined.

(** ** Read *)

Lemma Len_wf b : wf b -> Len (Some b) = end_ b - start b.
Proof.
  intros ((? & ? & ?) & ?). unfold Len. apply int32_id.
  unfold max_int32 in *. lia.
Qed.

Lemma Bytes_wf b :
  wf b ->
  Bytes b = Ok (take (Z.to_nat (end_ b - start b))
                 (drop (Z.to_nat (start b)) (contents (v b)))) /\
  Z.of_nat (length (take (Z.to_nat (end_ b - start b))
                      (drop (Z.to_nat (start b)) (contents (v b)))))
    = end_ b - start b.
Proof.
  intros ((? & ? & ?) & ?). unfold Bytes.
  rewrite slice_range_in by lia. split; [done|].
  rewrite length_take, length_drop. unfold len in *. lia.
Qed.

(** One call of [Read] on a buffer that satisfies the invariant. *)
Lemma Read_call data b w :
  wf b -> Bytes b = Ok w ->
  exists n err data' b',
    Read data b = Ok (n, err, data', b') /\
    (err = Some EOF <-> Len (Some b) = 0) /\
    (Len (Some b) = 0 -> n = 0 /\ data' = data /\ b' = b) /\
    (Len (Some b) <> 0 ->
     err = None /\
     n = Z.min (Z.of_nat (length data)) (Len (Some b)) /\
     data' = take (Z.to_nat n) w ++ drop (Z.to_nat n) data /\
     v b' = v b /\ out b' = out b /\
     (n = Len (Some b) -> start b' = 0 /\ end_ b' = 0) /\
     (n <> Len (Some b) -> start b' = start b + n /\ end_ b' = end_ b)).
Proof.
  intros Hwf Hw. pose proof (Len_wf b Hwf) as HL.
  unfold Bytes in Hw. pose proof (slice_range_length _ _ _ _ Hw) as Hlen.
  destruct Hwf as ((? & ? & ?) & ?).
  unfold Read. destruct (Z.eqb_spec (Len (Some b)) 0) as [E|E].
  - eexists _, _, _, _. split; [reflexivity|]. repeat split; try done.
  - rewrite Hw. simpl mbind.
    assert (Hn : int32 (Z.of_nat (length data `min` length w))
                 = Z.of_nat (length data `min` length w)).
    { apply int32_id. unfold max_int32 in *. lia. }
    unfold copy.
    destruct (Z.eqb_spec (int32 (Z.of_nat (length data `min` length w)))
                (Len (Some b))) as [E'|E'];
      (eexists _, _, _, _; split; [reflexivity|]);
      rewrite Nat2Z.id; rewrite Hn in *;
      repeat split; try done; try lia; intros; try lia.
    simpl. rewrite int32_id; unfold max_int32 in *; lia.
Qed.

(** C7.  On a buffer that satisfies the window invariant, [Read] returns
    [io.EOF] exactly when the length is 0, and then changes nothing.
    Otherwise it returns no error, copies the first
    [min(len(data), Len())] bytes of the window to the front of [data],
    and either resets both cursors to 0, when that was the whole window, or
    moves [start] forward by the count and leaves [end]. *)
Theorem Read_spec data b w :
  wf b -> Bytes b = Ok w ->
  exists n err data' b',
    Read data b = Ok (n, err, data', b') /\
    (err = Some EOF <-> Len (Some b) = 0) /\
    (Len (Some b) = 0 -> n = 0 /\ data' = data /\ b' = b) /\
    (Len (Some b) <> 0 ->
     err = None /\
     n = Z.min (Z.of_nat (length data)) (Len (Some b)) /\
     data' = take (Z.to_nat n) w ++ drop (Z.to_nat n) data /\
     v b' = v b /\ out b' = out b /\
     (n = Len (Some b) -> start b' = 0 /\ end_ b' = 0) /\
     (n <> Len (Some b) -> start b' = start b + n /\ end_ b' = end_ b)).
Proof. apply Read_call. Qed.

Lemma Read_spec_witness :
  let b := mkBuffer (Some [Byte.x01; Byte.x02; Byte.x03; Byte.x00]) 0 3 false in
  let w := [Byte.x01; Byte.x02; Byte.x03] in
  let data := [Byte.x00; Byte.x00] in
  wf b /\ Bytes b = Ok w /\
  exists n err data' b',
    Read data b = Ok (n, err, data', b') /\
    (err = Some EOF <-> Len (Some b) = 0) /\
    (Len (Some b) = 0 -> n = 0 /\ data' = data /\ b' = b) /\
    (Len (Some b) <> 0 ->
     err = None /\
     n = Z.min (Z.of_nat (length data)) (Len (Some b)) /\
     data' = take (Z.to_nat n) w ++ drop (Z.to_nat n) data /\
     v b' = v b /\ out b' = out b /\
     (n = Len (Some b) -> start b' = 0 /\ end_ b' = 0) /\
     (n <> Len (Some b) -> start b' = start b + n /\ end_ b' = end_ b)).
Proof.
  intros b w data.
  assert (Hwf : wf b).
  { unfold wf, window_inv, max_int32. vm_compute. intuition discriminate. }
  assert (HB : Bytes b = Ok w) by reflexivity.
  exact (conj Hwf (conj HB (Read_spec data b w Hwf HB))).
Defined.

(** ** WriteByte *)

Lemma IsFull_wf b : wf b -> IsFull (Some b) = true <-> end_ b = len (v b).
Proof.
  intros ((? & ? & ?) & ?). unfold IsFull.
  rewrite int32_id by (unfold max_int32 in *; pose proof (len_nonneg (v b)); lia).
  apply Z.eqb_eq.
Qed.

(** One call of [WriteByte] on a buffer that satisfies the invariant. *)
Lemma WriteByte_call x b :
  wf b ->
  (end_ b = len (v b) -> WriteByte x b = Ok (Some ErrBufferFull, b)) /\
  (end_ b <> len (v b) ->
   exists b',
     WriteByte x b = Ok (None, b') /\
     v b' = Some (<[Z.to_nat (end_ b) := x]> (contents (v b))) /\
     len (v b') = len (v b) /\
     start b' = start b /\ end_ b' = end_ b + 1 /\ out b' = out b /\
     wf b').
Proof.
  intros Hwf. pose proof (IsFull_wf b Hwf) as HF.
  destruct Hwf as ((? & ? & ?) & ?). unfold WriteByte. split; intros E.
  - apply HF in E. by rewrite E.
  - destruct (IsFull (Some b)); [tauto|].
    unfold slice_set.
    destruct (Z.leb_spec 0 (end_ b)); [|lia].
    destruct (Z.ltb_spec (end_ b) (len (v b))); [|lia].
    eexists. split; [reflexivity|]. simpl.
    assert (Hl : len (Some (<[Z.to_nat (end_ b):=x]> (contents (v b))))
                 = len (v b)).
    { unfold len. simpl. by rewrite length_insert. }
    rewrite int32_id by (unfold max_int32 in *; lia).
    repeat split; try done; simpl; rewrite ?Hl; lia.
Qed.

(** [WriteByte] over a run of bytes: the bytes that fit go in behind
    [end], one slot each, and every call after the region is full returns
    the buffer-full error. *)
Lemma WriteByte_each_spec xs : forall b k e,
  wf b ->
  k = Z.to_nat (len (v b) - end_ b) ->
  e = Z.to_nat (end_ b) ->
  exists b',
    WriteByte_each xs b =
      Ok (replicate (length xs `min` k) None ++
          replicate (length xs - k) (Some ErrBufferFull), b') /\
    contents (v b') =
      take e (contents (v b)) ++ take k xs ++
      drop (e + length xs `min` k) (contents (v b)) /\
    len (v b') = len (v b) /\
    start b' = start b /\
    end_ b' = end_ b + Z.of_nat (length xs `min` k) /\
    out b' = out b /\
    wf b'.
Proof.
  induction xs as [|x xs IH]; intros b k e Hwf Hk He.
  - exists b. simpl. rewrite take_nil, Nat.add_0_r. simpl. rewrite take_drop.
    split_and!; try done; lia.
  - destruct (WriteByte_call x b Hwf) as [Hfull Hroom].
    pose proof Hwf as ((? & ? & Hle) & ?).
    destruct (Z.eq_dec (end_ b) (len (v b))) as [E|E].
    + (* full: this call and all the later ones fail *)
      assert (k = 0%nat) as Hk0 by lia.
      destruct (IH b k e Hwf Hk He)
        as (b' & Hrun & Hc & Hl & Hs & He' & Ho & Hwf').
      rewrite Hk0 in *.
      exists b'. simpl WriteByte_each. rewrite (Hfull E). simpl mbind.
      rewrite Hrun. simpl mbind.
      rewrite Nat.min_0_r, Nat.sub_0_r in *. simpl in *.
      split_and!; done.
    + destruct (Hroom E) as (b1 & Hw & Hv1 & Hl1 & Hs1 & He1 & Ho1 & Hwf1).
      destruct k as [|k']; [exfalso; lia|].
      destruct (IH b1 k' (S e) Hwf1 ltac:(lia) ltac:(lia))
        as (b' & Hrun & Hc & Hl & Hs & He' & Ho & Hwf').
      assert (Hlt : (e < length (contents (v b)))%nat).
      { unfold len in *. lia. }
      rewrite <- He in Hv1.
      exists b'. simpl WriteByte_each. rewrite Hw. simpl mbind.
      rewrite Hrun. simpl mbind.
      split; [done|]. split; [|split_and!; try done; try congruence].
      * rewrite Hc, Hv1. simpl.
        rewrite (take_S_r _ _ x) by (by apply list_lookup_insert_eq).
        rewrite take_insert_ge by lia.
        rewrite drop_insert_lt by lia.
        rewrite <- app_assoc. simpl. do 4 f_equal. lia.
      * rewrite He', He1. simpl length. lia.
Qed.

(** Filling an empty buffer to the brim: as many calls as the region has
    bytes succeed, and the next one returns the buffer-full error. *)
Lemma WriteByte_fill (N : nat) b xs x :
  len (v b) = Z.of_nat N -> Z.of_nat N <= max_int32 -> (0 < N)%nat ->
  start b = 0 -> end_ b = 0 -> length xs = N ->
  exists b',
    WriteByte_each xs b = Ok (replicate N None, b') /\
    Bytes b' = Ok xs /\
    len (v b') = Z.of_nat N /\
    IsFull (Some b') = true /\
    WriteByte x b' = Ok (Some ErrBufferFull, b') /\
    WriteByte_each (xs ++ [x]) b =
      Ok (replicate N None ++ [Some ErrBufferFull], b').
Proof.
  intros Hlen Hmax HN Hs He Hxs.
  assert (Hwf : wf b) by (unfold wf, window_inv; lia).
  destruct (WriteByte_each_spec xs b N 0%nat Hwf ltac:(lia) ltac:(lia))
    as (b' & Hrun & Hc & Hl & Hs' & He' & Ho & Hwf').
  destruct (WriteByte_each_spec (xs ++ [x]) b N 0%nat Hwf ltac:(lia) ltac:(lia))
    as (b2 & Hrun2 & Hc2 & Hl2 & Hs2 & He2 & Ho2 & Hwf2).
  rewrite length_app in *. simpl length in *. rewrite Hxs in *.
  rewrite Nat.min_id, Nat.sub_diag in *.
  replace ((N + 1) `min` N)%nat with N in * by lia.
  replace (N + 1 - N)%nat with 1%nat in * by lia.
  simpl in Hrun, Hc, Hc2. rewrite app_nil_r in Hrun.
  assert (Hd : drop N (contents (v b)) = []).
  { apply drop_ge. unfold len in Hlen. lia. }
  rewrite Hd, app_nil_r in Hc, Hc2.
  rewrite take_app_length' in Hc2 by done.
  rewrite take_ge in Hc by lia.
  assert (E' : end_ b' = len (v b')) by lia.
  assert (b2 = b') as ->.
  { assert (xs <> []) by (intros ->; simpl in Hxs; lia).
    destruct b' as [v1 s1 e1 o1], b2 as [v2 s2 e2 o2].
    simpl in Hc, Hc2, Hs', Hs2, He', He2, Ho, Ho2.
    f_equal; try congruence.
    destruct v1 as [l1|], v2 as [l2|]; simpl in Hc, Hc2; congruence. }
  exists b'. split; [done|]. split.
  { destruct (Bytes_wf b' Hwf') as [HB _]. rewrite HB, Hs', Hc, He'.
    rewrite Hs, He. simpl. rewrite drop_0. f_equal. apply take_ge. lia. }
  split; [congruence|]. split; [by apply IsFull_wf|].
  split; [by apply WriteByte_call|]. exact Hrun2.
Qed.

Lemma Size_nat : Z.of_nat (Z.to_nat Size) = Size.
Proof. apply Z2Nat.id. unfold Size. lia. Qed.

(** C8.  On a buffer that satisfies the window invariant, [WriteByte]
    returns the buffer-full error exactly when [IsFull] holds, that is when
    [end] equals the length of the region, and then leaves the buffer as it
    was; otherwise it stores the byte at offset [end] and adds one to
    [end], in the same region.  So on a fresh pool buffer of 8192 bytes,
    8192 calls in a row succeed and fill the region with the bytes given,
    and the next call returns the buffer-full error. *)
Theorem WriteByte_spec :
  (forall x b,
     wf b ->
     (IsFull (Some b) = true <-> end_ b = len (v b)) /\
     (IsFull (Some b) = true -> WriteByte x b = Ok (Some ErrBufferFull, b)) /\
     (IsFull (Some b) = false ->
      exists b',
        WriteByte x b = Ok (None, b') /\
        v b' = Some (<[Z.to_nat (end_ b) := x]> (contents (v b))) /\
        len (v b') = len (v b) /\
        start b' = start b /\ end_ b' = end_ b + 1 /\ out b' = out b)) /\
  (forall b xs x,
     len (v b) = Size -> start b = 0 -> end_ b = 0 ->
     length xs = Z.to_nat Size ->
     exists b',
       WriteByte_each xs b = Ok (replicate (Z.to_nat Size) None, b') /\
       Bytes b' = Ok xs /\
       len (v b') = Size /\
       IsFull (Some b') = true /\
       WriteByte x b' = Ok (Some ErrBufferFull, b') /\
       WriteByte_each (xs ++ [x]) b =
         Ok (replicate (Z.to_nat Size) None ++ [Some ErrBufferFull], b')).
Proof.
  split.
  - intros x b Hwf. pose proof (IsFull_wf b Hwf) as HF.
    destruct (WriteByte_call x b Hwf) as [Hfull Hroom].
    split; [done|]. split.
    + intros E. apply Hfull. by apply HF.
    + intros E. destruct Hroom as (b' & ? & ? & ? & ? & ? & ? & ?).
      * intros E'. apply HF in E'. congruence.
      * exists b'. done.
  - intros b xs x Hlen Hs He Hxs.
    assert (H1 : len (v b) = Z.of_nat (Z.to_nat Size))
      by (by rewrite Size_nat).
    assert (H2 : Z.of_nat (Z.to_nat Size) <= max_int32)
      by (rewrite Size_nat; unfold Size, max_int32; lia).
    assert (H3 : (0 < Z.to_nat Size)%nat)
      by (apply Nat2Z.inj_lt; rewrite Size_nat; unfold Size; lia).
    destruct (WriteByte_fill (Z.to_nat Size) b xs x H1 H2 H3 Hs He Hxs)
      as (b' & Hrun & HB & Hl & HF & Hw & Hrun').
    exists b'. rewrite Size_nat in Hl.
    exact (conj Hrun (conj HB (conj Hl (conj HF (conj Hw Hrun'))))).
Qed.

Lemma pool_Get_ok p : pool_ok p -> len (fst (pool_Get p)) = Size.
Proof.
  destruct p as [|r p]; simpl.
  - intros _. change (len (Some (replicate (Z.to_nat Size) Byte.x00)) = Size).
    rewrite len_Some, length_replicate. apply Size_nat.
  - intros H. by apply Forall_cons in H as [[_ ?] _].
Qed.

Lemma WriteByte_spec_witness :
  let b := fst (New []) in
  let xs := replicate (Z.to_nat Size) Byte.x07 in
  (IsFull (Some b) = true <-> end_ b = len (v b)) /\
  (exists b',
     WriteByte_each xs b = Ok (replicate (Z.to_nat Size) None, b') /\
     Bytes b' = Ok xs /\
     len (v b') = Size /\
     IsFull (Some b') = true /\
     WriteByte Byte.x08 b' = Ok (Some ErrBufferFull, b') /\
     WriteByte_each (xs ++ [Byte.x08]) b =
       Ok (replicate (Z.to_nat Size) None ++ [Some ErrBufferFull], b')).
Proof.
  intros b xs.
  assert (Hlen : len (v b) = Size).
  { change (len (fst (pool_Get [])) = Size). apply pool_Get_ok, Forall_nil_2. }
  assert (Hwf : wf b).
  { unfold wf, window_inv. rewrite Hlen. unfold Size, max_int32. simpl. lia. }
  split.
  - exact (proj1 (proj1 WriteByte_spec Byte.x08 b Hwf)).
  - apply (proj2 WriteByte_spec b xs Byte.x08 Hlen eq_refl eq_refl).
    apply length_replicate.
Defined.

(** ** Write and the round trip *)

Lemma Require_fits n b p :
  wf b -> n <= len (v b) -> Require n b p = Ok (b, p).
Proof.
  intros ((? & ? & ?) & ?) Hn. unfold Require.
  rewrite int32_id by (unfold max_int32 in *; lia).
  rewrite Z.geb_leb. destruct (Z.leb_spec n (len (v b))); [done | lia].
Qed.

(** [Write] of data that fits behind [end]: no growth, the data lands at
    offsets [end .. end + len(data)) and [end] moves past it. *)
Lemma Write_fits data b p :
  wf b ->
  end_ b + Z.of_nat (length data) <= len (v b) ->
  exists b',
    Write data b p = Ok (Z.of_nat (length data), None, b', p) /\
    contents (v b') =
      take (Z.to_nat (end_ b)) (contents (v b)) ++ data ++
      drop (Z.to_nat (end_ b) + length data) (contents (v b)) /\
    len (v b') = len (v b) /\
    start b' = start b /\
    end_ b' = end_ b + Z.of_nat (length data) /\
    out b' = out b.
Proof.
  intros Hwf Hfit. pose proof Hwf as ((? & ? & ?) & ?).
  assert (Hd : int32 (Z.of_nat (length data)) = Z.of_nat (length data)).
  { apply int32_id. unfold max_int32 in *. lia. }
  assert (He : int32 (end_ b + Z.of_nat (length data))
               = end_ b + Z.of_nat (length data)).
  { apply int32_id. unfold max_int32 in *. lia. }
  unfold Write. rewrite Hd, He, Require_fits by done. simpl mbind.
  rewrite slice_range_in by lia. simpl mbind.
  rewrite take_ge by (rewrite length_drop; unfold len; lia).
  unfold copy.
  assert (Hmin : (length (drop (Z.to_nat (end_ b)) (contents (v b)))
                    `min` length data)%nat = length data).
  { rewrite length_drop. unfold len in *. lia. }
  rewrite Hmin, take_ge, drop_drop by lia.
  eexists. split; [simpl; rewrite Hd, He; reflexivity|]. simpl.
  assert (Hl : length (data ++ drop (Z.to_nat (end_ b) + length data)
                                 (contents (v b)))
               = (length (contents (v b)) - Z.to_nat (end_ b))%nat).
  { rewrite length_app, length_drop. unfold len in *. lia. }
  split_and!; try done.
  - destruct (v b) as [l|] eqn:Hv; simpl in *.
    + rewrite Hl.
      rewrite (drop_ge l (Z.to_nat (end_ b) + (length l - Z.to_nat (end_ b))))
        by lia.
      by rewrite app_nil_r.
    + unfold len in Hfit. simpl in Hfit.
      destruct data; [|simpl in *; lia].
      by rewrite take_nil, drop_nil.
  - apply store_len; [lia|]. rewrite Hl. unfold len in *. lia.
Qed.

(** [From] then one [Read] into a destination as long as the data. *)
Lemma From_Read data p dst :
  pool_ok p ->
  Z.of_nat (length data) <= max_int32 ->
  length dst = length data ->
  exists b p' n err b',
    From data p = Ok (b, p') /\
    Bytes b = Ok data /\
    Read dst b = Ok (n, err, data, b') /\
    Len (Some b') = 0 /\
    (data <> [] ->
     n = Z.of_nat (length data) /\ err = None /\
     start b' = 0 /\ end_ b' = 0).
Proof.
  intros Hp Hmax Hdst.
  assert (Hd : int32 (Z.of_nat (length data)) = Z.of_nat (length data)).
  { apply int32_id. unfold max_int32 in *. lia. }
  (* the buffer that [Get] hands to [Write] *)
  assert (Hget : exists b0 p0,
             Get (Z.of_nat (length data)) p = Ok (b0, p0) /\
             start b0 = 0 /\ end_ b0 = 0 /\
             Z.of_nat (length data) <= len (v b0) /\
             len (v b0) <= max_int32).
  { unfold Get. destruct (Z.leb_spec (Z.of_nat (length data)) Size).
    - unfold New. pose proof (pool_Get_ok p Hp) as HG.
      destruct (pool_Get p) as [r p0]. simpl in HG.
      eexists _, _. split; [reflexivity|]. simpl.
      rewrite HG. unfold Size, max_int32 in *. lia.
    - unfold make. destruct (Z.ltb_spec (Z.of_nat (length data)) 0); [lia|].
      eexists _, _. split; [reflexivity|]. simpl.
      rewrite len_Some, length_replicate. lia. }
  destruct Hget as (b0 & p0 & Hget & Hs0 & He0 & Hfit & Hcap).
  assert (Hwf0 : wf b0) by (unfold wf, window_inv; lia).
  destruct (Write_fits data b0 p0 Hwf0 ltac:(lia))
    as (b & Hw & Hc & Hl & Hs & He & Ho).
  assert (Hwf : wf b) by (unfold wf, window_inv; lia).
  assert (HB : Bytes b = Ok data).
  { destruct (Bytes_wf b Hwf) as [-> _]. f_equal.
    rewrite Hs, He, Hc, Hs0, He0.
    change (Z.to_nat 0) with 0%nat. rewrite take_0, drop_0. simpl app.
    replace (Z.to_nat (0 + Z.of_nat (length data) - 0)) with (length data)
      by lia.
    apply take_app_length. }
  destruct (Read_call dst b data Hwf HB)
    as (n & err & dst' & b' & HR & Herr & Hzero & Hpos).
  pose proof (Len_wf b Hwf) as HL. rewrite Hs, He, Hs0, He0 in HL.
  exists b, p0, n, err, b'.
  split. { unfold From. rewrite Hd, Hget. simpl mbind. by rewrite Hw. }
  split; [done|]. rewrite HR.
  destruct data as [|x data].
  - destruct Hzero as (-> & -> & ->); [by rewrite HL|].
    destruct dst; [|done]. split; [done|]. split; [by rewrite HL | done].
  - destruct Hpos as (Herr' & Hn & Hdst' & Hv & Hout & Hall & _).
    { rewrite HL. simpl length. lia. }
    assert (Hn' : n = Len (Some b)) by lia.
    destruct (Hall Hn') as [Hs' He'].
    assert (Hnn : Z.to_nat n = length (x :: data)) by lia.
    rewrite Hnn, take_ge, drop_ge in Hdst' by lia.
    rewrite app_nil_r in Hdst'. subst dst' err.
    split; [done|]. split.
    { unfold Len. by rewrite Hs', He'. }
    intros _. split_and!; try done. lia.
Qed.

(** C6 (amended).  For data whose length is a value of the [int32] that
    [From] converts it to, and a pool of regions of the fixed size:
    [From data] followed by one [Read] into a destination of the same
    length leaves exactly [data] in the destination and a buffer of
    length 0. *)
Theorem From_Read_roundtrip data p dst :
  pool_ok p ->
  Z.of_nat (length data) <= max_int32 ->
  length dst = length data ->
  exists b p' n err b',
    From data p = Ok (b, p') /\
    Bytes b = Ok data /\
    Read dst b = Ok (n, err, data, b') /\
    Len (Some b') = 0 /\
    (data <> [] ->
     n = Z.of_nat (length data) /\ err = None /\
     start b' = 0 /\ end_ b' = 0).
Proof. apply From_Read. Qed.

Lemma From_Read_roundtrip_witness :
  let data := [Byte.x01; Byte.x02; Byte.x03] in
  let dst := [Byte.x00; Byte.x00; Byte.x00] in
  exists b p' n err b',
    From data [] = Ok (b, p') /\
    Bytes b = Ok data /\
    Read dst b = Ok (n, err, data, b') /\
    Len (Some b') = 0 /\
    (data <> [] ->
     n = Z.of_nat (length data) /\ err = None /\
     start b' = 0 /\ end_ b' = 0).
Proof.
  intros data dst. apply (From_Read_roundtrip data [] dst).
  - apply Forall_nil_2.
  - unfold max_int32. simpl. lia.
  - reflexivity.
Defined.

(** ** The window invariant over sequences of calls *)

Lemma Require_wf n b p b' p' :
  wf b -> n <= max_int32 ->
  Require n b p = Ok (b', p') ->
  wf b' /\ start b' = start b /\ end_ b' = end_ b /\ n <= len (v b').
Proof.
  intros Hwf Hn H. pose proof Hwf as ((? & ? & ?) & ?).
  unfold Require in H. rewrite Z.geb_leb in H.
  rewrite (int32_id (len (v b))) in H by (unfold max_int32 in *; lia).
  destruct (Z.leb_spec n (len (v b))).
  - inversion H; subst. done.
  - apply bind_Ok in H as (nb & Hnb & H).
    apply bind_Ok in H as (dst & Hdst & H).
    apply bind_Ok in H as (src & Hsrc & H).
    apply make_Ok in Hnb as [? ->].
    apply slice_range_Ok in Hsrc as (? & ? & Hhi & _).
    rewrite len_Some, length_replicate in Hhi.
    assert (Hb' : start b' = start b /\ end_ b' = end_ b /\
                  len (v b') = n).
    { destruct (out b); inversion H; simpl;
        rewrite len_Some, length_replicate; lia. }
    unfold wf, window_inv. lia.
Qed.

(** Bytes put behind [end] through a sub-slice that reaches no further than
    the region, with [end] moved over [n] of them. *)
Lemma append_wf b w n :
  wf b ->
  end_ b + Z.of_nat (length w) <= len (v b) ->
  0 <= n <= Z.of_nat (length w) ->
  wf (set_end (set_v b (store (v b) (end_ b) w)) (int32 (end_ b + int32 n))).
Proof.
  intros ((? & ? & ?) & ?) Hw Hn. unfold wf, window_inv. simpl.
  rewrite store_len by lia.
  rewrite (int32_id n) by (unfold max_int32 in *; lia).
  rewrite int32_id by (unfold max_int32 in *; lia). lia.
Qed.

Lemma copy_bounds (dst src : list byte) n w :
  copy dst src = (n, w) ->
  length w = length dst /\ 0 <= n <= Z.of_nat (length dst).
Proof.
  intros H. pose proof (copy_length dst src). pose proof (copy_count dst src).
  rewrite H in *. simpl in *. lia.
Qed.

Lemma Write_wf data b p n e b' p' :
  wf b -> Write data b p = Ok (n, e, b', p') -> wf b'.
Proof.
  intros Hwf H. unfold Write in H.
  apply bind_Ok in H as ([b1 p1] & HR & H).
  apply bind_Ok in H as (tail & Htail & H).
  destruct (copy tail data) as [nBytes tail'] eqn:Hcopy.
  apply Require_wf in HR as (Hwf1 & ? & ? & ?);
    [|done|apply int32_range].
  pose proof (slice_range_length _ _ _ _ Htail).
  apply copy_bounds in Hcopy as [? ?].
  inversion H; subst. apply append_wf; [done| |]; lia.
Qed.

Lemma Extend_wf n b p ext b' p' :
  wf b -> Extend n b p = Ok (ext, b', p') -> wf b'.
Proof.
  intros Hwf H. unfold Extend in H.
  apply bind_Ok in H as ([b1 p1] & HR & H).
  apply bind_Ok in H as (ext' & Hext & H).
  apply Require_wf in HR as (((? & ? & ?) & ?) & ? & ? & ?);
    [|done|apply int32_range].
  apply slice_range_Ok in Hext as (? & ? & ? & _).
  inversion H; subst. unfold wf, window_inv. simpl. lia.
Qed.

Lemma ReadFrom_wf r b n e b' r' :
  wf b -> ReadFrom r b = Ok (n, e, b', r') -> wf b'.
Proof.
  intros Hwf H. unfold ReadFrom in H.
  apply bind_Ok in H as (tail & Htail & H).
  pose proof (slice_range_length _ _ _ _ Htail).
  unfold reader_Read in H. destruct r as [|x r].
  - inversion H; subst. apply append_wf; [done| |]; lia.
  - destruct (copy tail (x :: r)) as [m tail'] eqn:Hcopy.
    apply copy_bounds in Hcopy as [? ?].
    inversion H; subst. apply append_wf; [done| |]; lia.
Qed.

Lemma ReadFullFrom_wf r size b p n e b' p' r' :
  wf b -> ReadFullFrom r size b p = Ok (n, e, b', p', r') -> wf b'.
Proof.
  intros Hwf H. unfold ReadFullFrom in H.
  apply bind_Ok in H as ([b1 p1] & HR & H).
  apply bind_Ok in H as (buf & Hbuf & H).
  apply Require_wf in HR as (Hwf1 & ? & ? & ?);
    [|done|apply int32_range].
  pose proof (slice_range_length _ _ _ _ Hbuf).
  apply slice_range_Ok in Hbuf as (? & ? & ? & _).
  unfold io_ReadFull in H.
  destruct (copy buf r) as [m buf'] eqn:Hcopy.
  apply copy_bounds in Hcopy as [? ?].
  inversion H; subst. apply append_wf; [done| |]; lia.
Qed.

Lemma SetByte_wf i x b b' : wf b -> SetByte i x b = Ok b' -> wf b'.
Proof.
  intros Hwf H. unfold SetByte in H.
  apply bind_Ok in H as (v' & Hv' & H). inversion H; subst.
  unfold slice_set in Hv'.
  destruct (_ && _); [|done]. inversion Hv'; subst.
  unfold wf, window_inv in *. simpl.
  rewrite len_Some, length_insert. exact Hwf.
Qed.

Lemma Resize_wf from to b b' :
  wf b -> arg_ok (OpResize from to) b -> Resize from to b = Ok b' -> wf b'.
Proof.
  intros ((? & ? & ?) & ?) [? ?] HR. unfold Resize in HR.
  destruct (Z.ltb_spec (normalize b to) (normalize b from)); [done|].
  inversion HR; subst. unfold wf, window_inv. simpl.
  rewrite !int32_id by (unfold max_int32 in *; lia). lia.
Qed.

Lemma Advance_wf from b :
  wf b -> arg_ok (OpAdvance from) b -> wf (Advance from b).
Proof.
  intros Hwf [? Hle]. rewrite Len_wf in Hle by done.
  destruct Hwf as ((? & ? & ?) & ?).
  unfold Advance, wf, window_inv. simpl.
  rewrite !int32_id by (unfold max_int32 in *; lia). lia.
Qed.

Lemma Clear_wf b : wf b -> wf (Clear b).
Proof.
  intros ((? & ? & ?) & ?). unfold wf, window_inv. simpl. lia.
Qed.

Lemma Release_at_wf b p : wf b -> wf (fst (Release_at b p)).
Proof.
  intros Hwf. unfold Release_at.
  destruct (v b); [|done]. destruct (out b); [done|].
  simpl. unfold wf, window_inv, max_int32. simpl. unfold len. simpl. lia.
Qed.

Lemma Read_wf data b n e data' b' :
  wf b -> Read data b = Ok (n, e, data', b') -> wf b'.
Proof.
  intros Hwf H. destruct (Bytes_wf b Hwf) as [HB _].
  destruct (Read_call data b _ Hwf HB)
    as (n0 & e0 & d0 & b0 & HR & _ & Hzero & Hpos).
  rewrite HR in H. inversion H; subst. clear H.
  pose proof (Len_wf b Hwf) as HL.
  destruct (Z.eq_dec (Len (Some b)) 0) as [E|E].
  - by destruct (Hzero E) as (_ & _ & ->).
  - destruct (Hpos E) as (_ & Hn & _ & Hv & _ & Hall & Hpart).
    destruct Hwf as ((? & ? & ?) & ?).
    destruct (Z.eq_dec n (Len (Some b))) as [E'|E'].
    + destruct (Hall E') as [Hs He].
      unfold wf, window_inv. rewrite Hs, He, Hv. lia.
    + destruct (Hpart E') as [Hs He].
      unfold wf, window_inv. rewrite Hs, He, Hv. lia.
Qed.

Lemma WriteByte_wf x b e b' : wf b -> WriteByte x b = Ok (e, b') -> wf b'.
Proof.
  intros Hwf H. destruct (WriteByte_call x b Hwf) as [Hfull Hroom].
  destruct (Z.eq_dec (end_ b) (len (v b))) as [E|E].
  - rewrite (Hfull E) in H. by inversion H; subst.
  - destruct (Hroom E) as (b1 & Hw & _ & _ & _ & _ & _ & Hwf1).
    rewrite Hw in H. by inversion H; subst.
Qed.

(** The constructors hand out buffers that satisfy the invariant. *)
Lemma New_wf p : pool_ok p -> wf (fst (New p)).
Proof.
  intros Hp. pose proof (pool_Get_ok p Hp) as HG. unfold New.
  destruct (pool_Get p) as [r p']. simpl in *.
  unfold wf, window_inv. simpl. rewrite HG. unfold Size, max_int32. lia.
Qed.

Lemma As_wf data : len data <= max_int32 -> wf (As data).
Proof.
  intros H. unfold wf, window_inv. simpl. pose proof (len_nonneg data). lia.
Qed.

Lemma Get_wf size p b p' :
  pool_ok p -> size <= max_int32 -> Get size p = Ok (b, p') -> wf b.
Proof.
  intros Hp Hsz H. unfold Get in H. destruct (Z.leb_spec size Size).
  - inversion H as [HN]. pose proof (New_wf p Hp) as Hwf.
    by rewrite HN in Hwf.
  - apply bind_Ok in H as (nb & Hnb & H). apply make_Ok in Hnb as [? ->].
    inversion H; subst. unfold wf, window_inv. simpl.
    rewrite len_Some, length_replicate. lia.
Qed.

(** Each call, given arguments that are [arg_ok], keeps the invariant. *)
Lemma step_wf o b p b' p' :
  wf b -> arg_ok o b -> step o (b, p) = Ok (b', p') -> wf b'.
Proof.
  intros Hwf Harg H. destruct o; simpl in H.
  - inversion H. pose proof (Release_at_wf b p Hwf) as Hr.
    destruct (Release_at b p). inversion H; subst. exact Hr.
  - inversion H; subst. by apply Clear_wf.
  - apply bind_Ok in H as (b1 & H1 & H). inversion H; subst.
    eapply SetByte_wf; eauto.
  - eapply Require_wf; eauto.
  - apply bind_Ok in H as ([[ext b1] p1] & H1 & H). inversion H; subst.
    eapply Extend_wf; eauto.
  - apply bind_Ok in H as (b1 & H1 & H). inversion H; subst.
    eapply Resize_wf; eauto.
  - inversion H; subst. by apply Advance_wf.
  - apply bind_Ok in H as ([[[n e] b1] p1] & H1 & H). inversion H; subst.
    eapply Write_wf; eauto.
  - apply bind_Ok in H as ([e b1] & H1 & H). inversion H; subst.
    eapply WriteByte_wf; eauto.
  - apply bind_Ok in H as ([[[n e] b1] p1] & H1 & H). inversion H; subst.
    eapply Write_wf; eauto.
  - apply bind_Ok in H as ([[[n e] d] b1] & H1 & H). inversion H; subst.
    eapply Read_wf; eauto.
  - apply bind_Ok in H as ([[[n e] b1] r1] & H1 & H). inversion H; subst.
    eapply ReadFrom_wf; eauto.
  - apply bind_Ok in H as ([[[[n e] b1] p1] r1] & H1 & H). inversion H; subst.
    eapply ReadFullFrom_wf; eauto.
Qed.

(** C2 (as stated, false).  A buffer over three caller-owned bytes
    satisfies the invariant.  [Advance(5)] returns with [start = 5] above
    [end = 0], and [Resize(0, 9)] returns with [end = 9] above the 3 bytes
    of the region; neither call aborts. *)
Lemma window_invariant_broken :
  let b := As (Some [Byte.x01; Byte.x02; Byte.x03]) in
  wf b /\
  (exists s1,
     step (OpAdvance 5) (b, []) = Ok s1 /\
     start (fst s1) = 5 /\ end_ (fst s1) = 0 /\ ~ window_inv (fst s1)) /\
  (exists s2,
     step (OpResize 0 9) (b, []) = Ok s2 /\
     start (fst s2) = 0 /\ end_ (fst s2) = 9 /\ len (v (fst s2)) = 3 /\
     ~ window_inv (fst s2)).
Proof.
  split; [|split].
  - unfold wf, window_inv, max_int32. vm_compute. intuition discriminate.
  - eexists. split; [vm_compute; reflexivity|].
    unfold window_inv. vm_compute. intuition discriminate.
  - eexists. split; [vm_compute; reflexivity|].
    unfold window_inv. vm_compute. intuition discriminate.
Qed.

(** C2 (amended).  Over every sequence of calls that complete, where each
    [Advance] is given a normalised index between 0 and the length, each
    [Resize] a normalised [from] that is not negative and a normalised [to]
    that stays within the region, and each [Require] an [int32], a buffer
    that satisfies [0 <= start <= end <= len(region)] (with the region's
    length an [int32]) satisfies it after every call. *)
Theorem window_invariant_calls s os ss :
  wf (fst s) ->
  calls s os ss ->
  Forall (fun s' => wf (fst s')) ss.
Proof.
  intros Hwf Hcalls. induction Hcalls as [|o os [b p] [b1 p1] ss Harg Hstep _ IH].
  - constructor.
  - assert (wf b1) by (eapply step_wf; eauto).
    constructor; [done | by apply IH].
Qed.

Lemma window_invariant_calls_witness :
  let r := Some [Byte.x01; Byte.x02; Byte.x03; Byte.x00] in
  Forall (fun s' : state => wf (fst s'))
    [(mkBuffer r 0 3 true, []); (mkBuffer r 1 3 true, []);
     (mkBuffer r 1 2 true, []); (mkBuffer r 1 2 true, [])].
Proof.
  apply (window_invariant_calls
           (As (Some [Byte.x00; Byte.x00; Byte.x00; Byte.x00]), [])
           [OpWrite [Byte.x01; Byte.x02; Byte.x03]; OpAdvance 1;
            OpResize 0 1; OpRelease]).
  - unfold wf, window_inv, max_int32. vm_compute. intuition discriminate.
  - repeat (apply calls_cons;
            [vm_compute; intuition discriminate | vm_compute; reflexivity |]).
    apply calls_nil.
Defined.

(** ** The recyclable flag *)

Lemma Require_out n b p b' p' :
  Require n b p = Ok (b', p') -> out b = true -> out b' = true.
Proof.
  unfold Require. intros H Ho. rewrite Ho in H. simpl in H.
  destruct (_ >=? _); [by inversion H; subst|].
  apply bind_Ok in H as (nb & _ & H).
  apply bind_Ok in H as (dst & _ & H).
  apply bind_Ok in H as (src & _ & H).
  by inversion H; subst.
Qed.

(** Whenever [Require] replaces the region, the buffer leaves the pool. *)
Lemma Require_grows_out n b p b' p' :
  Require n b p = Ok (b', p') -> int32 (len (v b)) < n -> out b' = true.
Proof.
  unfold Require. intros H Hlt. rewrite Z.geb_leb in H.
  destruct (Z.leb_spec n (int32 (len (v b)))); [lia|].
  apply bind_Ok in H as (nb & _ & H).
  apply bind_Ok in H as (dst & _ & H).
  apply bind_Ok in H as (src & _ & H).
  destruct (out b) eqn:Ho; simpl in H; inversion H; subst; simpl; done.
Qed.

(** No call turns a set flag off. *)
Lemma step_out o b p b' p' :
  step o (b, p) = Ok (b', p') -> out b = true -> out b' = true.
Proof.
  intros H Ho. destruct o; simpl in H.
  - unfold Release_at in H. rewrite Ho in H.
    destruct (v b); inversion H; by subst.
  - inversion H; by subst.
  - unfold SetByte in H.
    apply bind_Ok in H as (b1 & H1 & H).
    apply bind_Ok in H1 as (v' & _ & H1).
    inversion H1; subst. inversion H; by subst.
  - eapply Require_out; eauto.
  - unfold Extend in H.
    apply bind_Ok in H as ([[ext b1] p1] & H1 & H).
    apply bind_Ok in H1 as ([b2 p2] & HR & H1).
    apply bind_Ok in H1 as (ext' & _ & H1).
    inversion H1; subst. inversion H; subst. simpl.
    eapply Require_out; eauto.
  - unfold Resize in H.
    apply bind_Ok in H as (b1 & H1 & H).
    destruct (_ <? _); [done|]. inversion H1; subst. inversion H; by subst.
  - inversion H; by subst.
  - unfold Write in H.
    apply bind_Ok in H as ([[[n e] b1] p1] & H1 & H).
    apply bind_Ok in H1 as ([b2 p2] & HR & H1).
    apply bind_Ok in H1 as (tail & _ & H1).
    destruct (copy tail data). inversion H1; subst. inversion H; subst. simpl.
    eapply Require_out; eauto.
  - unfold WriteByte in H.
    apply bind_Ok in H as ([e b1] & H1 & H).
    destruct (IsFull (Some b)).
    + inversion H1; subst. inversion H; by subst.
    + apply bind_Ok in H1 as (v' & _ & H1).
      inversion H1; subst. inversion H; by subst.
  - unfold WriteString, Write in H.
    apply bind_Ok in H as ([[[n e] b1] p1] & H1 & H).
    apply bind_Ok in H1 as ([b2 p2] & HR & H1).
    apply bind_Ok in H1 as (tail & _ & H1).
    destruct (copy tail s). inversion H1; subst. inversion H; subst. simpl.
    eapply Require_out; eauto.
  - unfold Read in H.
    apply bind_Ok in H as ([[[n e] d] b1] & H1 & H).
    destruct (Len (Some b) =? 0).
    + inversion H1; subst. inversion H; by subst.
    + apply bind_Ok in H1 as (src & _ & H1).
      destruct (copy data src). destruct (_ =? _);
        inversion H1; subst; inversion H; by subst.
  - unfold ReadFrom in H.
    apply bind_Ok in H as ([[[n e] b1] r1] & H1 & H).
    apply bind_Ok in H1 as (tail & _ & H1).
    destruct (reader_Read reader tail) as [[[? ?] ?] ?].
    inversion H1; subst. inversion H; by subst.
  - unfold ReadFullFrom in H.
    apply bind_Ok in H as ([[[[n e] b1] p1] r1] & H1 & H).
    apply bind_Ok in H1 as ([b2 p2] & HR & H1).
    apply bind_Ok in H1 as (buf & _ & H1).
    destruct (io_ReadFull reader buf) as [[[? ?] ?] ?].
    inversion H1; subst. inversion H; subst. simpl.
    eapply Require_out; eauto.
Qed.

Lemma run_out os : forall s s',
  run os s = Ok s' -> out (fst s) = true -> out (fst s') = true.
Proof.
  induction os as [|o os IH]; intros [b p] [b' p'] H Ho; simpl in H.
  - by inversion H; subst.
  - apply bind_Ok in H as ([b1 p1] & H1 & H).
    eapply IH; [exact H|]. simpl. eapply step_out; eauto.
Qed.

Lemma not_recyclable_out s : not_recyclable s -> out (fst s) = true.
Proof.
  intros [data p | size p b p' Hsz HG | n b p b' p' Hlt HR | b p Ho]; simpl.
  - reflexivity.
  - unfold Get in HG. destruct (Z.leb_spec size Size); [lia|].
    apply bind_Ok in HG as (nb & _ & HG). by inversion HG; subst.
  - eapply Require_grows_out; eauto.
  - exact Ho.
Qed.

(** C4.  Once a buffer is outside the pool, because it wraps caller-owned
    bytes, was created larger than the pool's fixed size, or was grown by
    [Require], its flag stays set through every sequence of calls:
    shrinking, clearing and releasing included. *)
Theorem recyclable_sticky os s s' :
  not_recyclable s ->
  run os s = Ok s' ->
  out (fst s') = true.
Proof.
  intros Hs Hrun. eapply run_out; [exact Hrun|]. by apply not_recyclable_out.
Qed.

Lemma recyclable_sticky_witness :
  out (fst (mkBuffer (Some [Byte.x00; Byte.x00; Byte.x00; Byte.x00; Byte.x00])
              0 0 true, [Some [Byte.x00; Byte.x00]]))
  = true.
Proof.
  apply (recyclable_sticky
           [OpResize 0 1; OpClear; OpRelease]
           (mkBuffer (Some [Byte.x00; Byte.x00; Byte.x00; Byte.x00; Byte.x00])
              0 2 true, [Some [Byte.x00; Byte.x00]])).
  - apply (nr_Require 5 (mkBuffer (Some [Byte.x00; Byte.x00]) 0 2 false) []).
    + vm_compute. reflexivity.
    + vm_compute. reflexivity.
  - vm_compute. reflexivity.
Defined.

(** * Further properties of the buffer *)

(** ** Indexing and views *)

Lemma mbind_Ok {A B} (k : A -> result B) (x : A) : Ok x ≫= k = k x.
Proof. reflexivity. Qed.

Lemma window_sub (l : list Byte.byte) (s n f k : nat) :
  (f + k <= n)%nat ->
  take k (drop f (take n (drop s l))) = take k (drop (s + f) l).
Proof.
  intros H. rewrite (take_drop_commute (take n (drop s l))), take_take.
  rewrite Nat.min_l by lia.
  by rewrite <- take_drop_commute, drop_drop.
Qed.

Lemma window_drop (l : list Byte.byte) (s n f : nat) :
  (f <= n)%nat ->
  drop f (take n (drop s l)) = take (n - f) (drop (s + f) l).
Proof.
  intros H. replace n with (f + (n - f))%nat at 1 by lia.
  by rewrite <- take_drop_commute, drop_drop.
Qed.

Lemma window_lookup (l : list Byte.byte) (s n i : nat) :
  (i < n)%nat -> take n (drop s l) !! i = l !! (s + i)%nat.
Proof.
  intros H. rewrite lookup_take_lt by done. apply lookup_drop.
Qed.

(** The parts of a buffer that satisfies the invariant, spelled out. *)
Lemma wf_window b w :
  wf b -> Bytes b = Ok w ->
  w = take (Z.to_nat (end_ b - start b))
        (drop (Z.to_nat (start b)) (contents (v b))) /\
  Z.of_nat (length w) = end_ b - start b /\
  Len (Some b) = end_ b - start b.
Proof.
  intros Hwf Hw. destruct (Bytes_wf b Hwf) as [HB Hl].
  rewrite Hw in HB. injection HB as ->.
  split; [done|]. split; [done|]. by apply Len_wf.
Qed.

(** X1.  [Byte(i)] for an index inside the window, [0 <= i < Len()],
    returns the byte that [Bytes()] has at position [i]. *)
Theorem Byte_in_window i b w :
  wf b -> Bytes b = Ok w -> 0 <= i < Len (Some b) ->
  exists x, Byte i b = Ok x /\ w !! Z.to_nat i = Some x.
Proof.
  intros Hwf Hw Hi. destruct (wf_window b w Hwf Hw) as (Hweq & Hlen & HL).
  destruct Hwf as ((? & ? & ?) & ?). rewrite HL in Hi.
  unfold Byte, slice_get.
  rewrite int32_id by (unfold max_int32 in *; lia).
  destruct (Z.leb_spec 0 (start b + i)); [|lia].
  destruct (Z.ltb_spec (start b + i) (len (v b))); [|lia]. simpl.
  assert (Hlk : w !! Z.to_nat i
                = contents (v b) !! Z.to_nat (start b + i)).
  { rewrite Hweq, window_lookup by lia. f_equal. lia. }
  rewrite <- Hlk.
  destruct (w !! Z.to_nat i) as [x|] eqn:E; [eauto|].
  apply lookup_ge_None in E. lia.
Qed.

Lemma Byte_in_window_witness :
  exists x,
    Byte 1 (mkBuffer (Some [Byte.x00; Byte.x01; Byte.x02; Byte.x03]) 1 4 true)
      = Ok x /\
    [Byte.x01; Byte.x02; Byte.x03] !! Z.to_nat 1 = Some x.
Proof.
  apply (Byte_in_window 1
           (mkBuffer (Some [Byte.x00; Byte.x01; Byte.x02; Byte.x03]) 1 4 true)
           [Byte.x01; Byte.x02; Byte.x03]).
  - unfold wf, window_inv, max_int32. vm_compute. intuition discriminate.
  - reflexivity.
  - vm_compute. intuition discriminate.
Defined.

(** X2.  [Byte(i)] checks its index against the region, not against the
    window: it returns a byte exactly when [start + i] is an offset of the
    region, and panics otherwise.  Indices from [Len()] up to the end of
    the region are read without complaint. *)
Theorem Byte_Ok_iff i b :
  wf b -> - 2 ^ 31 <= i <= max_int32 ->
  (0 <= start b + i < len (v b) ->
   exists x, Byte i b = Ok x /\
             contents (v b) !! Z.to_nat (start b + i) = Some x) /\
  (~ (0 <= start b + i < len (v b)) -> Byte i b = Panic).
Proof.
  intros ((? & ? & ?) & ?) Hi. unfold Byte, slice_get. split; intros Hr.
  - rewrite int32_id by (unfold max_int32 in *; lia).
    destruct (Z.leb_spec 0 (start b + i)); [|lia].
    destruct (Z.ltb_spec (start b + i) (len (v b))); [|lia]. simpl.
    destruct (contents (v b) !! Z.to_nat (start b + i)) as [x|] eqn:E;
      [eauto|].
    apply lookup_ge_None in E. unfold len in *. lia.
  - destruct (Z.le_gt_cases (start b + i) max_int32).
    + rewrite int32_id by (unfold max_int32 in *; lia).
      destruct (Z.leb_spec 0 (start b + i)); [|done].
      destruct (Z.ltb_spec (start b + i) (len (v b))); [lia|done].
    + assert (int32 (start b + i) < 0).
      { unfold int32, max_int32 in *.
        replace (start b + i + 2 ^ 31)
          with ((start b + i - 2 ^ 31) + 1 * 2 ^ 32) by lia.
        rewrite Z.mod_add by lia. rewrite Z.mod_small; lia. }
      destruct (Z.leb_spec 0 (int32 (start b + i))); [lia|done].
Qed.

Lemma Byte_Ok_iff_witness :
  let b := mkBuffer (Some [Byte.x00; Byte.x01; Byte.x02; Byte.x03]) 1 2 true in
  (exists x, Byte 2 b = Ok x /\
             contents (v b) !! Z.to_nat (start b + 2) = Some x) /\
  Byte 3 b = Panic.
Proof.
  intros b.
  assert (Hwf : wf b).
  { unfold wf, window_inv, max_int32. vm_compute. intuition discriminate. }
  split.
  - apply (proj1 (Byte_Ok_iff 2 b Hwf
                    ltac:(vm_compute; intuition discriminate))).
    vm_compute. intuition discriminate.
  - apply (proj2 (Byte_Ok_iff 3 b Hwf
                    ltac:(vm_compute; intuition discriminate))).
    vm_compute. intros [_ H]. discriminate H.
Defined.

(** X3.  [SetByte(i, x)] for an index inside the window replaces the byte
    that [Bytes()] has at position [i] and nothing else; cursors, flag and
    region length stay, and [Byte(i)] then returns [x]. *)
Theorem SetByte_in_window i x b w :
  wf b -> Bytes b = Ok w -> 0 <= i < Len (Some b) ->
  exists b',
    SetByte i x b = Ok b' /\
    Bytes b' = Ok (<[Z.to_nat i := x]> w) /\
    Byte i b' = Ok x /\
    start b' = start b /\ end_ b' = end_ b /\ out b' = out b /\
    len (v b') = len (v b).
Proof.
  intros Hwf Hw Hi. destruct (wf_window b w Hwf Hw) as (Hweq & Hlen & HL).
  destruct Hwf as ((? & ? & ?) & ?). rewrite HL in Hi.
  unfold SetByte, slice_set.
  rewrite int32_id by (unfold max_int32 in *; lia).
  destruct (Z.leb_spec 0 (start b + i)); [|lia].
  destruct (Z.ltb_spec (start b + i) (len (v b))); [|lia]. simpl.
  eexists. split; [reflexivity|]. simpl.
  assert (Hl : len (Some (<[Z.to_nat (start b + i):=x]> (contents (v b))))
               = len (v b)).
  { unfold len. simpl. by rewrite length_insert. }
  split_and!; try done.
  - unfold Bytes. simpl. rewrite slice_range_in by (rewrite ?Hl; lia).
    f_equal. simpl. rewrite Hweq.
    rewrite drop_insert_ge by lia. rewrite take_insert_lt by lia.
    do 2 f_equal. lia.
  - unfold Byte, slice_get. simpl.
    rewrite int32_id by (unfold max_int32 in *; lia). rewrite Hl.
    destruct (Z.leb_spec 0 (start b + i)); [|lia].
    destruct (Z.ltb_spec (start b + i) (len (v b))); [|lia]. simpl.
    rewrite list_lookup_insert_eq; [done|]. unfold len in *. lia.
Qed.

Lemma SetByte_in_window_witness :
  let b := mkBuffer (Some [Byte.x00; Byte.x01; Byte.x02; Byte.x03]) 1 4 true in
  let w := [Byte.x01; Byte.x02; Byte.x03] in
  exists b',
    SetByte 1 Byte.x09 b = Ok b' /\
    Bytes b' = Ok (<[Z.to_nat 1 := Byte.x09]> w) /\
    Byte 1 b' = Ok Byte.x09 /\
    start b' = start b /\ end_ b' = end_ b /\ out b' = out b /\
    len (v b') = len (v b).
Proof.
  intros b w. apply (SetByte_in_window 1 Byte.x09 b w).
  - unfold wf, window_inv, max_int32. vm_compute. intuition discriminate.
  - reflexivity.
  - vm_compute. intuition discriminate.
Defined.

Lemma normalize_position b i :
  wf b ->
  0 <= position (Len (Some b)) i <= Len (Some b) ->
  normalize b i = position (Len (Some b)) i.
Proof.
  intros Hwf. rewrite (Len_wf b Hwf). destruct Hwf as ((? & ? & ?) & ?).
  unfold normalize, position. destruct (Z.ltb_spec i 0); [|done].
  intros Hp. rewrite (Len_wf b) by (unfold wf, window_inv; lia).
  apply int32_id. unfold max_int32 in *. lia.
Qed.

(** [BytesRange] between two positions of the window. *)
Lemma BytesRange_at from to b w :
  wf b -> Bytes b = Ok w ->
  let f := position (Len (Some b)) from in
  let t := position (Len (Some b)) to in
  0 <= f -> f <= t -> t <= Len (Some b) ->
  BytesRange from to b = Ok (take (Z.to_nat (t - f)) (drop (Z.to_nat f) w)).
Proof.
  intros Hwf Hw f t Hf Hft Ht.
  destruct (wf_window b w Hwf Hw) as (Hweq & Hlen & HL).
  unfold BytesRange.
  rewrite !normalize_position by (done || (fold f t; lia)). fold f t.
  destruct Hwf as ((? & ? & ?) & ?).
  rewrite !int32_id by (unfold max_int32 in *; lia).
  rewrite slice_range_in by lia. f_equal. rewrite Hweq.
  rewrite window_sub by lia.
  f_equal; [lia|]. f_equal. lia.
Qed.

(** X4.  [BytesRange(from, to)], with each negative index counted back
    from the end of the window, returns the bytes of [Bytes()] from
    position [from] up to position [to], for positions with
    [0 <= from <= to <= Len()].  So [BytesRange(-2, -1)] on a window of
    length [L] is [BytesRange(L-2, L-1)]. *)
Theorem BytesRange_window from to b w :
  wf b -> Bytes b = Ok w ->
  let f := position (Len (Some b)) from in
  let t := position (Len (Some b)) to in
  0 <= f -> f <= t -> t <= Len (Some b) ->
  BytesRange from to b = Ok (take (Z.to_nat (t - f)) (drop (Z.to_nat f) w)).
Proof. apply BytesRange_at. Qed.

Lemma BytesRange_window_witness :
  BytesRange (-2) (-1)
    (mkBuffer (Some [Byte.x00; Byte.x01; Byte.x02; Byte.x03; Byte.x04]) 1 4 true)
  = Ok [Byte.x02].
Proof.
  apply (BytesRange_window (-2) (-1)
           (mkBuffer (Some [Byte.x00; Byte.x01; Byte.x02; Byte.x03; Byte.x04])
              1 4 true)
           [Byte.x01; Byte.x02; Byte.x03]).
  - unfold wf, window_inv, max_int32. vm_compute. intuition discriminate.
  - reflexivity.
  - vm_compute. discriminate.
  - vm_compute. discriminate.
  - vm_compute. discriminate.
Defined.

(** X5.  [BytesTo(k)] and [BytesFrom(k)] cut the window at position [k]
    (a negative [k] counted back from the end): the first returns the
    bytes before the cut, the second the bytes after it, and together they
    are [Bytes()]. *)
Theorem BytesTo_BytesFrom_split k b w :
  wf b -> Bytes b = Ok w ->
  let c := position (Len (Some b)) k in
  0 <= c -> c <= Len (Some b) ->
  BytesTo k b = Ok (take (Z.to_nat c) w) /\
  BytesFrom k b = Ok (drop (Z.to_nat c) w) /\
  take (Z.to_nat c) w ++ drop (Z.to_nat c) w = w.
Proof.
  intros Hwf Hw c Hc0 Hc.
  destruct (wf_window b w Hwf Hw) as (Hweq & Hlen & HL).
  unfold BytesTo, BytesFrom.
  rewrite !normalize_position by (done || (fold c; lia)). fold c.
  destruct Hwf as ((? & ? & ?) & ?).
  rewrite !int32_id by (unfold max_int32 in *; lia).
  rewrite !slice_range_in by lia.
  split; [|split; [|apply take_drop]]; f_equal; rewrite Hweq.
  - rewrite take_take. f_equal; lia.
  - rewrite window_drop by lia. f_equal; [lia|]. f_equal. lia.
Qed.

Lemma BytesTo_BytesFrom_split_witness :
  let b := mkBuffer (Some [Byte.x00; Byte.x01; Byte.x02; Byte.x03; Byte.x04])
             1 4 true in
  let w := [Byte.x01; Byte.x02; Byte.x03] in
  BytesTo (-1) b = Ok (take (Z.to_nat 2) w) /\
  BytesFrom (-1) b = Ok (drop (Z.to_nat 2) w) /\
  take (Z.to_nat 2) w ++ drop (Z.to_nat 2) w = w.
Proof.
  intros b w. apply (BytesTo_BytesFrom_split (-1) b w).
  - unfold wf, window_inv, max_int32. vm_compute. intuition discriminate.
  - reflexivity.
  - vm_compute. discriminate.
  - vm_compute. discriminate.
Defined.

(** ** Moving the cursors *)

(** X6.  [Advance(from)] to a position inside the window drops the bytes
    before that position from the front of [Bytes()]; a negative [from]
    keeps that many bytes at the end.  [Advance(Len())] empties the
    buffer. *)
Theorem Advance_window from b w :
  wf b -> Bytes b = Ok w ->
  let c := position (Len (Some b)) from in
  0 <= c -> c <= Len (Some b) ->
  Bytes (Advance from b) = Ok (drop (Z.to_nat c) w) /\
  Len (Some (Advance from b)) = Len (Some b) - c /\
  (c = Len (Some b) -> IsEmpty (Some (Advance from b)) = true).
Proof.
  intros Hwf Hw c Hc0 Hc.
  destruct (wf_window b w Hwf Hw) as (Hweq & Hlen & HL).
  assert (Hwf' : wf (Advance from b)).
  { apply Advance_wf; [done|]. simpl.
    rewrite normalize_position by (done || (fold c; lia)). fold c. lia. }
  assert (HL' : Len (Some (Advance from b)) = Len (Some b) - c).
  { rewrite (Len_wf _ Hwf'), HL. unfold Advance. simpl.
    rewrite normalize_position by (done || (fold c; lia)). fold c.
    destruct Hwf as ((? & ? & ?) & ?).
    rewrite int32_id by (unfold max_int32 in *; lia). lia. }
  split; [|split; [done|]].
  - destruct (Bytes_wf _ Hwf') as [-> _]. f_equal.
    unfold Advance. simpl.
    rewrite normalize_position by (done || (fold c; lia)). fold c.
    destruct Hwf as ((? & ? & ?) & ?).
    rewrite int32_id by (unfold max_int32 in *; lia).
    rewrite Hweq, window_drop by lia. f_equal; [lia|]. f_equal. lia.
  - intros E. unfold IsEmpty. rewrite HL', E. apply Z.eqb_eq. lia.
Qed.

Lemma Advance_window_witness :
  let b := mkBuffer (Some [Byte.x01; Byte.x02; Byte.x03; Byte.x00]) 0 3 false in
  let w := [Byte.x01; Byte.x02; Byte.x03] in
  Bytes (Advance (-1) b) = Ok (drop (Z.to_nat 2) w) /\
  Len (Some (Advance (-1) b)) = Len (Some b) - 2 /\
  (2 = Len (Some b) -> IsEmpty (Some (Advance (-1) b)) = true).
Proof.
  intros b w. apply (Advance_window (-1) b w).
  - unfold wf, window_inv, max_int32. vm_compute. intuition discriminate.
  - reflexivity.
  - vm_compute. discriminate.
  - vm_compute. discriminate.
Defined.

(** X7.  [Resize(from, to)] with positions [0 <= from <= to <= Len()]
    (negative indices counted back from the end) completes and narrows the
    window to the bytes of [Bytes()] between the two positions, which is
    what [BytesRange(from, to)] returned before the call; the region and
    the flag stay. *)
Theorem Resize_window from to b w :
  wf b -> Bytes b = Ok w ->
  let f := position (Len (Some b)) from in
  let t := position (Len (Some b)) to in
  0 <= f -> f <= t -> t <= Len (Some b) ->
  exists b',
    Resize from to b = Ok b' /\
    Bytes b' = Ok (take (Z.to_nat (t - f)) (drop (Z.to_nat f) w)) /\
    Bytes b' = BytesRange from to b /\
    Len (Some b') = t - f /\
    v b' = v b /\ out b' = out b.
Proof.
  intros Hwf Hw f t Hf Hft Ht.
  pose proof (BytesRange_at from to b w Hwf Hw Hf Hft Ht) as HR.
  fold f t in HR.
  destruct (wf_window b w Hwf Hw) as (Hweq & Hlen & HL).
  assert (Hnf : normalize b from = f)
    by (apply normalize_position; [done | fold f; lia]).
  assert (Hnt : normalize b to = t)
    by (apply normalize_position; [done | fold t; lia]).
  unfold Resize. rewrite Hnf, Hnt.
  destruct (Z.ltb_spec t f); [lia|].
  eexists. split; [reflexivity|].
  assert (HB : Bytes (set_start (set_end b (int32 (start b + t)))
                        (int32 (start (set_end b (int32 (start b + t))) + f)))
               = BytesRange from to b).
  { unfold Bytes, BytesRange. simpl. by rewrite Hnf, Hnt. }
  split_and!; try done.
  - by rewrite HB.
  - unfold Len. simpl. destruct Hwf as ((? & ? & ?) & ?).
    rewrite (int32_id (start b + t)) by (unfold max_int32 in *; lia).
    rewrite (int32_id (start b + f)) by (unfold max_int32 in *; lia).
    rewrite int32_id; unfold max_int32 in *; lia.
Qed.

Lemma Resize_window_witness :
  let b := mkBuffer (Some [Byte.x01; Byte.x02; Byte.x03; Byte.x00]) 0 3 false in
  let w := [Byte.x01; Byte.x02; Byte.x03] in
  exists b',
    Resize 1 (-1) b = Ok b' /\
    Bytes b' = Ok (take (Z.to_nat (2 - 1)) (drop (Z.to_nat 1) w)) /\
    Bytes b' = BytesRange 1 (-1) b /\
    Len (Some b') = 2 - 1 /\
    v b' = v b /\ out b' = out b.
Proof.
  intros b w. apply (Resize_window 1 (-1) b w).
  - unfold wf, window_inv, max_int32. vm_compute. intuition discriminate.
  - reflexivity.
  - vm_compute. discriminate.
  - vm_compute. discriminate.
  - vm_compute. discriminate.
Defined.

(** ** Growth and appending *)

(** The two outcomes of [Require] on a buffer that satisfies the
    invariant. *)
Lemma Require_cases n b p :
  wf b -> n <= max_int32 ->
  exists b' p',
    Require n b p = Ok (b', p') /\
    wf b' /\ n <= len (v b') /\ start b' = start b /\ end_ b' = end_ b /\
    (n <= len (v b) -> b' = b /\ p' = p) /\
    (len (v b) < n ->
     len (v b') = n /\ out b' = true /\
     v b' = Some (replicate (Z.to_nat n) Byte.x00) /\
     (out b = true -> p' = p) /\
     (out b = false ->
      exists old, p' = pool_Put old p /\ len old = len (v b) /\
                  (v b = None -> old = None) /\
                  old = wiped_region b)) /\
    Require n b' p' = Ok (b', p').
Proof.
  intros Hwf Hn. pose proof Hwf as ((? & ? & ?) & ?).
  destruct (Z.le_gt_cases n (len (v b))) as [Hfit|Hgrow].
  - exists b, p. rewrite Require_fits by done.
    split_and!; try done; lia.
  - set (nb := replicate (Z.to_nat n) Byte.x00).
    assert (Hnb : len (Some nb) = n).
    { unfold nb. rewrite len_Some, length_replicate. lia. }
    set (dst := take (Z.to_nat (end_ b - start b))
                  (drop (Z.to_nat (start b)) (contents (v b)))).
    set (zeros := replicate (Z.to_nat (end_ b - start b)) Byte.x00).
    assert (Hdst : slice_range (v b) (start b) (end_ b) = Ok dst)
      by (apply slice_range_in; lia).
    assert (Hsrc : slice_range (Some nb) (start b) (end_ b) = Ok zeros).
    { rewrite slice_range_in by (rewrite ?Hnb; lia). f_equal.
      unfold nb, zeros. simpl contents.
      rewrite drop_replicate, take_replicate. f_equal. lia. }
    assert (Hcopy : (copy dst zeros).2 = zeros).
    { unfold copy, dst, zeros. simpl.
      rewrite length_take, length_drop, length_replicate.
      rewrite take_ge by (rewrite length_replicate; unfold len in *; lia).
      rewrite drop_ge
        by (rewrite length_take, length_drop; unfold len in *; lia).
      apply app_nil_r. }
    assert (Hold : store (v b) (start b) zeros = wiped_region b).
    { unfold wiped_region. destruct (v b) as [l|]; [|done]. simpl.
      unfold zeros. rewrite length_replicate. do 4 f_equal. lia. }
    assert (Holdlen : len (wiped_region b) = len (v b)).
    { rewrite <- Hold. apply store_len; [lia|]. unfold zeros.
      rewrite length_replicate. lia. }
    assert (HR : Require n b p =
                 Ok (if out b then (set_v b (Some nb), p)
                     else (set_v (set_out b true) (Some nb),
                           pool_Put (wiped_region b) p))).
    { unfold Require. rewrite Z.geb_leb.
      rewrite (int32_id (len (v b))) by (unfold max_int32 in *; lia).
      destruct (Z.leb_spec n (len (v b))); [lia|].
      unfold make. destruct (Z.ltb_spec n 0); [lia|].
      rewrite mbind_Ok. cbv beta. fold nb.
      rewrite Hdst, mbind_Ok. cbv beta.
      rewrite Hsrc, mbind_Ok. cbv beta.
      rewrite Hcopy, Hold. by destruct (out b). }
    rewrite HR.
    destruct (out b) eqn:Ho.
    + exists (set_v b (Some nb)), p.
      assert (Hwf' : wf (set_v b (Some nb))).
      { unfold wf, window_inv. simpl. rewrite Hnb. lia. }
      assert (Require n (set_v b (Some nb)) p = Ok (set_v b (Some nb), p)).
      { apply Require_fits; [done|]. simpl. rewrite Hnb. lia. }
      split_and!; try done; simpl; rewrite ?Hnb; try lia;
        try (intros _; split_and!; done).
    + exists (set_v (set_out b true) (Some nb)),
        (pool_Put (wiped_region b) p).
      assert (Hwf' : wf (set_v (set_out b true) (Some nb))).
      { unfold wf, window_inv. simpl. rewrite Hnb. lia. }
      assert (Require n (set_v (set_out b true) (Some nb))
                (pool_Put (wiped_region b) p)
              = Ok (set_v (set_out b true) (Some nb),
                    pool_Put (wiped_region b) p)).
      { apply Require_fits; [done|]. simpl. rewrite Hnb. lia. }
      split_and!; try done; simpl; rewrite ?Hnb; try lia.
      intros _. split_and!; try done. intros _.
      exists (wiped_region b). split_and!; try done.
      intros Hv. unfold wiped_region. by rewrite Hv.
Qed.

(** X8.  On a buffer that satisfies the invariant [Require(n)] never
    panics and leaves a region of at least [n] bytes with the cursors where
    they were.  With enough room it changes nothing.  Otherwise the new
    region is a fresh one of exactly [n] zero bytes, the buffer is outside
    the pool from then on, and the pool receives one slice exactly when the
    buffer was recyclable: the old region, its window overwritten with
    zero bytes and the rest as it was (nil if the buffer held none).  A
    second [Require(n)] changes nothing. *)
Theorem Require_spec n b p :
  wf b -> n <= max_int32 ->
  exists b' p',
    Require n b p = Ok (b', p') /\
    wf b' /\ n <= len (v b') /\ start b' = start b /\ end_ b' = end_ b /\
    (n <= len (v b) -> b' = b /\ p' = p) /\
    (len (v b) < n ->
     len (v b') = n /\ out b' = true /\
     v b' = Some (replicate (Z.to_nat n) Byte.x00) /\
     (out b = true -> p' = p) /\
     (out b = false ->
      exists old, p' = pool_Put old p /\ len old = len (v b) /\
                  (v b = None -> old = None) /\
                  old = wiped_region b)) /\
    Require n b' p' = Ok (b', p').
Proof. apply Require_cases. Qed.

Lemma Require_spec_witness :
  let b := mkBuffer (Some [Byte.x01; Byte.x02]) 0 2 false in
  exists b' p',
    Require 5 b [] = Ok (b', p') /\
    wf b' /\ 5 <= len (v b') /\ start b' = start b /\ end_ b' = end_ b /\
    (5 <= len (v b) -> b' = b /\ p' = []) /\
    (len (v b) < 5 ->
     len (v b') = 5 /\ out b' = true /\
     v b' = Some (replicate (Z.to_nat 5) Byte.x00) /\
     (out b = true -> p' = []) /\
     (out b = false ->
      exists old, p' = pool_Put old [] /\ len old = len (v b) /\
                  (v b = None -> old = None) /\
                  old = wiped_region b)) /\
    Require 5 b' p' = Ok (b', p').
Proof.
  intros b. apply (Require_spec 5 b []).
  - unfold wf, window_inv, max_int32. vm_compute. intuition discriminate.
  - vm_compute. discriminate.
Defined.

(** The window after [end] moved forward over bytes of the region. *)
Lemma Bytes_set_end b w e :
  wf b -> Bytes b = Ok w -> end_ b <= e -> e <= len (v b) ->
  Bytes (set_end b e) =
    Ok (w ++ take (Z.to_nat (e - end_ b))
                (drop (Z.to_nat (end_ b)) (contents (v b)))).
Proof.
  intros Hwf Hw He1 He2.
  destruct (wf_window b w Hwf Hw) as (Hweq & _ & _).
  destruct Hwf as ((? & ? & ?) & ?).
  unfold Bytes. simpl. rewrite slice_range_in by lia. f_equal.
  rewrite Hweq.
  replace (Z.to_nat (e - start b))
    with (Z.to_nat (end_ b - start b) + Z.to_nat (e - end_ b))%nat by lia.
  rewrite <- take_take_drop, drop_drop. do 3 f_equal. lia.
Qed.

(** X9.  [Extend(n)] on a buffer that satisfies the invariant completes
    exactly when [n] is not negative and [end + n] is an [int32]; otherwise
    it panics.  When it completes it returns [n] bytes, which are then the
    last [n] bytes of the window; with room for them in the region nothing
    is allocated and the bytes before them are untouched. *)
Theorem Extend_spec n b p w :
  wf b -> Bytes b = Ok w -> - 2 ^ 31 <= n <= max_int32 ->
  (0 <= n /\ end_ b + n <= max_int32 ->
   exists ext b' p' w',
     Extend n b p = Ok (ext, b', p') /\
     Z.of_nat (length ext) = n /\
     Bytes b' = Ok (w' ++ ext) /\ length w' = length w /\
     start b' = start b /\ end_ b' = end_ b + n /\
     (end_ b + n <= len (v b) ->
      w' = w /\ v b' = v b /\ out b' = out b /\ p' = p)) /\
  (~ (0 <= n /\ end_ b + n <= max_int32) -> Extend n b p = Panic).
Proof.
  intros Hwf Hw Hn. pose proof Hwf as ((? & ? & ?) & ?). split.
  - intros [Hn0 Hmax].
    assert (He : int32 (end_ b + n) = end_ b + n)
      by (apply int32_id; unfold max_int32 in *; lia).
    destruct (Require_cases (end_ b + n) b p Hwf Hmax)
      as (b1 & p1 & HR & Hwf1 & Hcap & Hs1 & He1 & Hfit & _ & _).
    destruct (Bytes_wf b1 Hwf1) as [HB1 Hl1].
    set (w1 := take (Z.to_nat (end_ b1 - start b1))
                 (drop (Z.to_nat (start b1)) (contents (v b1)))) in *.
    unfold Extend. rewrite He, HR. simpl mbind.
    rewrite slice_range_in by lia. simpl mbind.
    eexists _, _, _, w1. split; [reflexivity|].
    destruct (wf_window b w Hwf Hw) as (_ & Hlw & _).
    split_and!; simpl; try lia.
    + rewrite length_take, length_drop. unfold len in *. lia.
    + rewrite (Bytes_set_end b1 w1) by (done || lia).
      do 3 f_equal; lia.
    + intros Hroom. destruct (Hfit Hroom) as [-> ->].
      rewrite Hw in HB1. by injection HB1 as <-.
  - intros Hbad.
    assert (He : int32 (end_ b + n) < end_ b).
    { destruct (Z.le_gt_cases (end_ b + n) max_int32).
      - rewrite int32_id; unfold max_int32 in *; lia.
      - unfold int32, max_int32 in *.
        replace (end_ b + n + 2 ^ 31)
          with ((end_ b + n - 2 ^ 31) + 1 * 2 ^ 32) by lia.
        rewrite Z.mod_add by lia. rewrite Z.mod_small; lia. }
    unfold Extend. rewrite Require_fits by (done || lia). simpl mbind.
    unfold slice_range.
    destruct (Z.leb_spec 0 (end_ b)); [|lia].
    destruct (Z.leb_spec (end_ b) (int32 (end_ b + n))); [lia|done].
Qed.

Lemma Extend_spec_witness :
  let b := mkBuffer (Some [Byte.x01; Byte.x02; Byte.x03; Byte.x04]) 0 2 true in
  let w := [Byte.x01; Byte.x02] in
  (exists ext b' p' w',
     Extend 2 b [] = Ok (ext, b', p') /\
     Z.of_nat (length ext) = 2 /\
     Bytes b' = Ok (w' ++ ext) /\ length w' = length w /\
     start b' = start b /\ end_ b' = end_ b + 2 /\
     (end_ b + 2 <= len (v b) ->
      w' = w /\ v b' = v b /\ out b' = out b /\ p' = [])) /\
  Extend (-1) b [] = Panic.
Proof.
  intros b w.
  assert (Hwf : wf b).
  { unfold wf, window_inv, max_int32. vm_compute. intuition discriminate. }
  split.
  - apply (proj1 (Extend_spec 2 b [] w Hwf eq_refl
                    ltac:(vm_compute; intuition discriminate))).
    vm_compute. intuition discriminate.
  - apply (proj2 (Extend_spec (-1) b [] w Hwf eq_refl
                    ltac:(vm_compute; intuition discriminate))).
    vm_compute. intros [H _]. by apply H.
Defined.

Lemma window_append (l data tail : list Byte.byte) (s e : nat) :
  (s <= e)%nat -> (e <= length l)%nat ->
  take (e - s + length data) (drop s (take e l ++ data ++ tail))
  = take (e - s) (drop s l) ++ data.
Proof.
  intros Hs He.
  rewrite drop_app_le by (rewrite length_take; lia).
  rewrite take_app_add' by (rewrite length_drop, length_take; lia).
  rewrite take_app_length, take_drop_commute.
  do 3 f_equal. lia.
Qed.

(** [Write] of data that fits behind [end], seen through [Bytes()]. *)
Lemma Write_fits_Bytes data b p w :
  wf b -> Bytes b = Ok w ->
  end_ b + Z.of_nat (length data) <= len (v b) ->
  exists b',
    Write data b p = Ok (Z.of_nat (length data), None, b', p) /\
    Bytes b' = Ok (w ++ data) /\
    start b' = start b /\ end_ b' = end_ b + Z.of_nat (length data) /\
    out b' = out b /\ len (v b') = len (v b) /\ wf b'.
Proof.
  intros Hwf Hw Hfit.
  destruct (wf_window b w Hwf Hw) as (Hweq & _ & _).
  destruct (Write_fits data b p Hwf Hfit)
    as (b' & HW & Hc & Hl & Hs & He & Ho).
  pose proof Hwf as ((? & ? & ?) & ?).
  assert (Hwf' : wf b') by (unfold wf, window_inv; lia).
  exists b'. split_and!; try done.
  destruct (Bytes_wf b' Hwf') as [-> _]. f_equal.
  rewrite Hc, Hs, He, Hweq.
  replace (Z.to_nat (end_ b + Z.of_nat (length data) - start b))
    with (Z.to_nat (end_ b) - Z.to_nat (start b) + length data)%nat by lia.
  rewrite window_append by (unfold len in *; lia).
  do 2 f_equal. lia.
Qed.

(** [Write] on a buffer that satisfies the invariant, with or without
    growth. *)
Lemma Write_cases data b p w :
  wf b -> Bytes b = Ok w ->
  end_ b + Z.of_nat (length data) <= max_int32 ->
  exists b' p' w',
    Write data b p = Ok (Z.of_nat (length data), None, b', p') /\
    Bytes b' = Ok (w' ++ data) /\ length w' = length w /\
    start b' = start b /\ end_ b' = end_ b + Z.of_nat (length data) /\
    wf b' /\
    (end_ b + Z.of_nat (length data) <= len (v b) ->
     w' = w /\ p' = p /\ out b' = out b /\ len (v b') = len (v b)) /\
    (len (v b) < end_ b + Z.of_nat (length data) ->
     len (v b') = end_ b + Z.of_nat (length data) /\ out b' = true /\
     (out b = true -> p' = p) /\
     (out b = false ->
      exists old, p' = pool_Put old p /\ len old = len (v b) /\
                  (v b = None -> old = None) /\
                  old = wiped_region b)).
Proof.
  intros Hwf Hw Hmax. pose proof Hwf as ((? & ? & ?) & ?).
  set (e := end_ b + Z.of_nat (length data)) in *.
  assert (He : int32 (end_ b + int32 (Z.of_nat (length data))) = e).
  { rewrite (int32_id (Z.of_nat _)) by (unfold max_int32 in *; lia).
    apply int32_id. unfold max_int32 in *. lia. }
  destruct (Require_cases e b p Hwf Hmax)
    as (b1 & p1 & HR & Hwf1 & Hcap & Hs1 & He1 & Hfit & Hgrow & HR1).
  destruct (Bytes_wf b1 Hwf1) as [HB1 Hl1].
  set (w1 := take (Z.to_nat (end_ b1 - start b1))
               (drop (Z.to_nat (start b1)) (contents (v b1)))) in *.
  destruct (Write_fits_Bytes data b1 p1 w1 Hwf1 HB1 ltac:(lia))
    as (b' & HW & HB' & Hs' & He' & Ho' & Hl' & Hwf').
  (* the call on [b] continues as the call on the buffer [Require] left *)
  assert (HWb : Write data b p = Write data b1 p1).
  { unfold Write. rewrite He, He1, He. fold e. by rewrite HR, HR1. }
  destruct (wf_window b w Hwf Hw) as (_ & Hlw & _).
  exists b', p1, w1. rewrite HWb.
  split_and!; try done; try lia.
  - intros Hroom. destruct (Hfit Hroom) as [-> ->].
    rewrite Hw in HB1. injection HB1 as <-. done.
  - intros Hsmall. destruct (Hgrow Hsmall) as (Hl1' & Ho1 & _ & Hp1 & Hp2).
    split_and!; try done; congruence.
Qed.

(** X10.  [Write(data)] on a buffer that satisfies the invariant, with
    [end + len(data)] an [int32], for data held apart from the buffer's
    own region (the call is given the bytes of [data], not a view of the
    region): it never fails and never writes short.  It returns
    [len(data)] and no error, the window grows by [len(data)], and its last
    [len(data)] bytes are [data].  When the data fits behind [end] nothing
    is allocated, the pool is untouched and the bytes already in the window
    stay: [Bytes()] is the old window followed by [data].  When it does not
    fit, the new region has exactly [end + len(data)] bytes, the buffer is
    outside the pool from then on, and a recyclable buffer hands the pool
    its old region, with the window overwritten by zero bytes and the rest
    as it was. *)
Theorem Write_spec data b p w :
  wf b -> Bytes b = Ok w ->
  end_ b + Z.of_nat (length data) <= max_int32 ->
  exists b' p' w',
    Write data b p = Ok (Z.of_nat (length data), None, b', p') /\
    Bytes b' = Ok (w' ++ data) /\ length w' = length w /\
    start b' = start b /\ end_ b' = end_ b + Z.of_nat (length data) /\
    wf b' /\
    (end_ b + Z.of_nat (length data) <= len (v b) ->
     w' = w /\ p' = p /\ out b' = out b /\ len (v b') = len (v b)) /\
    (len (v b) < end_ b + Z.of_nat (length data) ->
     len (v b') = end_ b + Z.of_nat (length data) /\ out b' = true /\
     (out b = true -> p' = p) /\
     (out b = false ->
      exists old, p' = pool_Put old p /\ len old = len (v b) /\
                  (v b = None -> old = None) /\
                  old = wiped_region b)).
Proof. apply Write_cases. Qed.

Lemma Write_spec_witness :
  let b := mkBuffer (Some [Byte.x01; Byte.x00; Byte.x00]) 0 1 false in
  let data := [Byte.x02; Byte.x03] in
  let w := [Byte.x01] in
  exists b' p' w',
    Write data b [] = Ok (Z.of_nat (length data), None, b', p') /\
    Bytes b' = Ok (w' ++ data) /\ length w' = length w /\
    start b' = start b /\ end_ b' = end_ b + Z.of_nat (length data) /\
    wf b' /\
    (end_ b + Z.of_nat (length data) <= len (v b) ->
     w' = w /\ p' = [] /\ out b' = out b /\ len (v b') = len (v b)) /\
    (len (v b) < end_ b + Z.of_nat (length data) ->
     len (v b') = end_ b + Z.of_nat (length data) /\ out b' = true /\
     (out b = true -> p' = []) /\
     (out b = false ->
      exists old, p' = pool_Put old [] /\ len old = len (v b) /\
                  (v b = None -> old = None) /\
                  old = wiped_region b)).
Proof.
  intros b data w. apply (Write_spec data b [] w).
  - unfold wf, window_inv, max_int32. vm_compute. intuition discriminate.
  - reflexivity.
  - vm_compute. discriminate.
Defined.

(** X11.  [WriteByte(x)] on a buffer that is not full appends [x] to
    [Bytes()]. *)
Theorem WriteByte_appends x b w :
  wf b -> Bytes b = Ok w -> IsFull (Some b) = false ->
  exists b',
    WriteByte x b = Ok (None, b') /\
    Bytes b' = Ok (w ++ [x]) /\
    Len (Some b') = Len (Some b) + 1.
Proof.
  intros Hwf Hw HF.
  destruct (wf_window b w Hwf Hw) as (Hweq & _ & HL).
  destruct (WriteByte_call x b Hwf) as [_ Hroom].
  destruct Hroom as (b' & HW & Hv & Hl & Hs & He & Ho & Hwf').
  { intros E. apply (IsFull_wf b Hwf) in E. congruence. }
  pose proof Hwf as ((? & ? & Hle) & ?).
  assert (Hlt : end_ b < len (v b)).
  { destruct (Z.eq_dec (end_ b) (len (v b))) as [E|]; [|lia].
    apply (IsFull_wf b Hwf) in E. congruence. }
  exists b'. split; [done|]. split.
  - destruct (Bytes_wf b' Hwf') as [-> _]. f_equal.
    rewrite Hv, Hs, He, Hweq. simpl contents.
    rewrite !take_drop_commute.
    replace (Z.to_nat (start b) + Z.to_nat (end_ b + 1 - start b))%nat
      with (S (Z.to_nat (end_ b))) by lia.
    replace (Z.to_nat (start b) + Z.to_nat (end_ b - start b))%nat
      with (Z.to_nat (end_ b)) by lia.
    rewrite (take_S_r _ _ x)
      by (apply list_lookup_insert_eq; unfold len in *; lia).
    rewrite take_insert_ge by lia.
    rewrite drop_app_le by (rewrite length_take; unfold len in *; lia).
    done.
  - rewrite (Len_wf b' Hwf'), HL. lia.
Qed.

Lemma WriteByte_appends_witness :
  let b := mkBuffer (Some [Byte.x01; Byte.x00; Byte.x00]) 0 1 false in
  exists b',
    WriteByte Byte.x02 b = Ok (None, b') /\
    Bytes b' = Ok ([Byte.x01] ++ [Byte.x02]) /\
    Len (Some b') = Len (Some b) + 1.
Proof.
  intros b. apply (WriteByte_appends Byte.x02 b [Byte.x01]).
  - unfold wf, window_inv, max_int32. vm_compute. intuition discriminate.
  - reflexivity.
  - reflexivity.
Defined.

(** ** Reuse, wrapping and release *)

(** X12.  [Clear] discards the content and keeps the region: a [Write]
    after it, of data that fits in the region, starts at offset 0 and
    leaves exactly [data] in the window, with no allocation and nothing
    put to the pool. *)
Theorem Clear_Write data b p :
  wf b -> Z.of_nat (length data) <= len (v b) ->
  Len (Some (Clear b)) = 0 /\
  exists b',
    Write data (Clear b) p = Ok (Z.of_nat (length data), None, b', p) /\
    Bytes b' = Ok data /\
    start b' = 0 /\ end_ b' = Z.of_nat (length data) /\
    len (v b') = len (v b) /\ out b' = out b.
Proof.
  intros Hwf Hfit. pose proof (Clear_wf b Hwf) as Hwf0.
  assert (HB0 : Bytes (Clear b) = Ok []).
  { destruct (Bytes_wf _ Hwf0) as [-> _]. done. }
  split; [by rewrite (Len_wf _ Hwf0)|].
  destruct (Write_fits_Bytes data (Clear b) p [] Hwf0 HB0 Hfit)
    as (b' & HW & HB & Hs & He & Ho & Hl & _).
  exists b'. split_and!; done.
Qed.

Lemma Clear_Write_witness :
  let b := mkBuffer (Some [Byte.x01; Byte.x02; Byte.x03]) 1 3 false in
  let data := [Byte.x07; Byte.x08] in
  Len (Some (Clear b)) = 0 /\
  exists b',
    Write data (Clear b) [] = Ok (Z.of_nat (length data), None, b', []) /\
    Bytes b' = Ok data /\
    start b' = 0 /\ end_ b' = Z.of_nat (length data) /\
    len (v b') = len (v b) /\ out b' = out b.
Proof.
  intros b data. apply (Clear_Write data b []).
  - unfold wf, window_inv, max_int32. vm_compute. intuition discriminate.
  - vm_compute. discriminate.
Defined.

(** X13.  [As(data)] starts with an empty window over the caller's bytes;
    [Extend(len(data))] then exposes exactly those bytes, as the returned
    slice and as [Bytes()], in the caller's region, without allocation and
    without touching the pool.  The buffer is full. *)
Theorem As_Extend data p :
  len data <= max_int32 ->
  Bytes (As data) = Ok [] /\
  exists b',
    Extend (len data) (As data) p = Ok (contents data, b', p) /\
    Bytes b' = Ok (contents data) /\
    v b' = data /\ out b' = true /\
    IsFull (Some b') = true.
Proof.
  intros Hmax. pose proof (len_nonneg data) as H0.
  pose proof (As_wf data Hmax) as Hwf.
  assert (HB : Bytes (As data) = Ok []).
  { destruct (Bytes_wf _ Hwf) as [-> _]. done. }
  split; [done|].
  assert (HR : Require (len data) (As data) p = Ok (As data, p)).
  { apply (Require_fits (len data) (As data) p Hwf). simpl. lia. }
  assert (Hall : take (Z.to_nat (len data - 0))
                   (drop (Z.to_nat 0) (contents data))
                 = contents data).
  { change (Z.to_nat 0) with 0%nat. rewrite drop_0.
    apply take_ge. unfold len. lia. }
  assert (Hsl : slice_range data 0 (len data) = Ok (contents data)).
  { rewrite slice_range_in by lia. by rewrite Hall. }
  unfold Extend. change (end_ (As data)) with 0. rewrite Z.add_0_l.
  rewrite int32_id by (unfold max_int32 in *; lia).
  rewrite HR. simpl mbind. change (v (As data)) with data.
  change (end_ (As data)) with 0. rewrite Hsl. simpl mbind.
  eexists. split; [reflexivity|]. split_and!; try done.
  - unfold IsFull. simpl. rewrite int32_id by (unfold max_int32 in *; lia).
    apply Z.eqb_refl.
Qed.

Lemma As_Extend_witness :
  let data := Some [Byte.x01; Byte.x02; Byte.x03] in
  Bytes (As data) = Ok [] /\
  exists b',
    Extend (len data) (As data) [] = Ok (contents data, b', []) /\
    Bytes b' = Ok (contents data) /\
    v b' = data /\ out b' = true /\
    IsFull (Some b') = true.
Proof.
  intros data. apply (As_Extend data []). vm_compute. discriminate.
Defined.

(** X14.  A handle whose region [Release] has recycled reads as an empty
    buffer: [Bytes()] is empty and [Read] returns [io.EOF] without copying,
    while [Byte] and [SetByte] panic for every index. *)
Theorem released_handle_reads b p r dst :
  v b = Some r -> out b = false ->
  exists b',
    Release (Some b) p = (Some b', pool_Put (Some r) p) /\
    Bytes b' = Ok [] /\
    Read dst b' = Ok (0, Some EOF, dst, b') /\
    (forall i, Byte i b' = Panic) /\
    (forall i x, SetByte i x b' = Panic).
Proof.
  intros Hv Ho. unfold Release, Release_at. rewrite Hv, Ho.
  eexists. split; [reflexivity|]. split_and!; try done.
  - intros i. unfold Byte, slice_get. simpl. change (len None) with 0.
    destruct (Z.leb_spec 0 (int32 (0 + i))),
      (Z.ltb_spec (int32 (0 + i)) 0); simpl; try done; lia.
  - intros i x. unfold SetByte, slice_set. simpl. change (len None) with 0.
    destruct (Z.leb_spec 0 (int32 (0 + i))),
      (Z.ltb_spec (int32 (0 + i)) 0); simpl; try done; lia.
Qed.

Lemma released_handle_reads_witness :
  let b := mkBuffer (Some [Byte.x01; Byte.x02]) 0 2 false in
  exists b',
    Release (Some b) [] = (Some b', pool_Put (Some [Byte.x01; Byte.x02]) []) /\
    Bytes b' = Ok [] /\
    Read [Byte.x00] b' = Ok (0, Some EOF, [Byte.x00], b') /\
    (forall i, Byte i b' = Panic) /\
    (forall i x, SetByte i x b' = Panic).
Proof.
  intros b.
  apply (released_handle_reads b [] [Byte.x01; Byte.x02] [Byte.x00]);
    reflexivity.
Defined.

(** X15.  [Write] through a handle whose region [Release] has recycled
    does not touch the recycled region: for data that is not empty and
    whose length is an [int32], it allocates a region of exactly
    [len(data)] bytes that holds [data], the buffer is outside the pool
    from then on, and the pool, which holds the recycled region, is handed
    a nil slice on top of it. *)
Theorem Write_after_Release data b p r :
  v b = Some r -> out b = false ->
  data <> [] -> Z.of_nat (length data) <= max_int32 ->
  exists b1 b2,
    Release (Some b) p = (Some b1, pool_Put (Some r) p) /\
    Write data b1 (pool_Put (Some r) p)
      = Ok (Z.of_nat (length data), None, b2,
            pool_Put None (pool_Put (Some r) p)) /\
    Bytes b2 = Ok data /\
    len (v b2) = Z.of_nat (length data) /\
    out b2 = true.
Proof.
  intros Hv Ho Hne Hmax.
  set (b1 := Clear (set_v b None)).
  assert (Hwf1 : wf b1).
  { unfold wf, window_inv, max_int32. simpl. unfold len. simpl. lia. }
  assert (Hlen : 0 < Z.of_nat (length data))
    by (destruct data; simpl; [done|lia]).
  destruct (Write_cases data b1 (pool_Put (Some r) p) [] Hwf1 eq_refl
              ltac:(simpl; lia))
    as (b2 & p2 & w' & HW & HB & Hw' & Hs & He & Hwf2 & _ & Hgrow).
  destruct Hgrow as (Hl & Ho2 & _ & Hp); [simpl; unfold len; simpl; lia|].
  destruct (Hp Ho) as (old & -> & _ & Hold & _).
  rewrite (Hold eq_refl) in HW.
  destruct w'; [|done]. simpl in HB, Hl.
  exists b1, b2. split.
  { unfold Release, Release_at. by rewrite Hv, Ho. }
  split_and!; try done; lia.
Qed.

Lemma Write_after_Release_witness :
  let b := mkBuffer (Some [Byte.x01; Byte.x02]) 0 2 false in
  let r := [Byte.x01; Byte.x02] in
  let data := [Byte.x07; Byte.x08; Byte.x09] in
  exists b1 b2,
    Release (Some b) [] = (Some b1, pool_Put (Some r) []) /\
    Write data b1 (pool_Put (Some r) [])
      = Ok (Z.of_nat (length data), None, b2,
            pool_Put None (pool_Put (Some r) [])) /\
    Bytes b2 = Ok data /\
    len (v b2) = Z.of_nat (length data) /\
    out b2 = true.
Proof.
  intros b r data. apply (Write_after_Release data b [] r).
  - reflexivity.
  - reflexivity.
  - discriminate.
  - vm_compute. discriminate.
Defined.

(** ** Reading *)

(** X16.  [Read(dst)] takes from the front of the window: it copies the
    first [min(len(dst), Len())] bytes of [Bytes()] to the front of [dst],
    and what [Bytes()] returns afterwards is the rest, in order.  Reads one
    after the other therefore deliver the window piece by piece. *)
Theorem Read_window dst b w :
  wf b -> Bytes b = Ok w ->
  exists n err dst' b',
    Read dst b = Ok (Z.of_nat n, err, dst', b') /\
    n = (length dst `min` length w)%nat /\
    dst' = take n w ++ drop n dst /\
    Bytes b' = Ok (drop n w) /\
    wf b'.
Proof.
  intros Hwf Hw. destruct (wf_window b w Hwf Hw) as (Hweq & Hlen & HL).
  destruct (Read_call dst b w Hwf Hw)
    as (n & err & dst' & b' & HR & _ & Hzero & Hpos).
  pose proof (Read_wf _ _ _ _ _ _ Hwf HR) as Hwf'.
  pose proof Hwf as ((? & ? & ?) & ?).
  destruct (Z.eq_dec (Len (Some b)) 0) as [E|E].
  - destruct (Hzero E) as (-> & -> & ->).
    assert (w = []) as -> by (destruct w; [done | simpl in *; lia]).
    exists 0%nat, err, dst, b. rewrite Nat.min_0_r.
    split_and!; try done.
  - destruct (Hpos E) as (_ & Hn & Hdst & Hv & _ & Hall & Hpart).
    exists (Z.to_nat n), err, dst', b'.
    assert (Hnn : Z.to_nat n = (length dst `min` length w)%nat) by lia.
    rewrite Z2Nat.id by lia.
    split_and!; try done.
    destruct (Bytes_wf b' Hwf') as [-> _]. f_equal.
    destruct (Z.eq_dec n (Len (Some b))) as [E'|E'].
    + destruct (Hall E') as [-> ->].
      rewrite (drop_ge w) by lia. done.
    + destruct (Hpart E') as [-> ->]. rewrite Hv, Hweq.
      clear Hzero Hpos Hall Hpart HR Hwf' Hdst Hweq.
      replace (Z.to_nat (end_ b - (start b + n)))
        with (Z.to_nat (end_ b - start b) - Z.to_nat n)%nat by lia.
      replace (Z.to_nat (start b + n))
        with (Z.to_nat (start b) + Z.to_nat n)%nat by lia.
      by rewrite window_drop by lia.
Qed.

Lemma Read_window_witness :
  let b := mkBuffer (Some [Byte.x01; Byte.x02; Byte.x03; Byte.x00]) 0 3 false in
  let w := [Byte.x01; Byte.x02; Byte.x03] in
  let dst := [Byte.x00; Byte.x00] in
  exists n err dst' b',
    Read dst b = Ok (Z.of_nat n, err, dst', b') /\
    n = (length dst `min` length w)%nat /\
    dst' = take n w ++ drop n dst /\
    Bytes b' = Ok (drop n w) /\
    wf b'.
Proof.
  intros b w dst. apply (Read_window dst b w).
  - unfold wf, window_inv, max_int32. vm_compute. intuition discriminate.
  - reflexivity.
Defined.

Lemma store_contents s lo w :
  0 <= lo -> lo + Z.of_nat (length w) <= len s ->
  contents (store s lo w) =
    take (Z.to_nat lo) (contents s) ++ w ++
    drop (Z.to_nat lo + length w) (contents s).
Proof.
  intros Hlo Hw. destruct s as [l|]; simpl; [done|].
  unfold len in Hw. simpl in Hw.
  destruct w; [|simpl in *; lia]. by rewrite take_nil, drop_nil.
Qed.

(** Bytes stored behind [end] through a sub-slice, with [end] moved over
    the first [m] of them. *)
Lemma Bytes_after_store b w tail m :
  wf b -> Bytes b = Ok w ->
  end_ b + Z.of_nat (length tail) <= len (v b) ->
  (m <= length tail)%nat ->
  Bytes (set_end (set_v b (store (v b) (end_ b) tail))
           (int32 (end_ b + int32 (Z.of_nat m))))
  = Ok (w ++ take m tail).
Proof.
  intros Hwf Hw Hfit Hm.
  destruct (wf_window b w Hwf Hw) as (Hweq & _ & _).
  pose proof (append_wf b tail (Z.of_nat m) Hwf Hfit ltac:(lia)) as Hwf'.
  pose proof Hwf as ((? & ? & ?) & ?).
  destruct (Bytes_wf _ Hwf') as [-> _]. f_equal. simpl.
  rewrite (int32_id (Z.of_nat m)) by (unfold max_int32 in *; lia).
  rewrite int32_id by (unfold max_int32 in *; lia).
  rewrite store_contents by lia.
  rewrite <- (take_drop m tail) at 1. rewrite <- !app_assoc.
  replace (Z.to_nat (end_ b + Z.of_nat m - start b))
    with (Z.to_nat (end_ b) - Z.to_nat (start b) + length (take m tail))%nat
    by (rewrite length_take; lia).
  rewrite window_append by (unfold len in *; lia).
  rewrite Hweq. do 2 f_equal. lia.
Qed.

(** X17.  [ReadFrom] with a reader that hands out its remaining bytes the
    way [bytes.Reader] does: one read of at most the free room behind
    [end]; the bytes read are appended to [Bytes()], the region is never
    grown, and the error is [io.EOF] exactly when the reader had nothing
    left.  On a full buffer it reads nothing. *)
Theorem ReadFrom_spec r b w :
  wf b -> Bytes b = Ok w ->
  exists n err b',
    ReadFrom r b = Ok (Z.of_nat n, err, b', drop n r) /\
    n = (Z.to_nat (len (v b) - end_ b) `min` length r)%nat /\
    Bytes b' = Ok (w ++ take n r) /\
    (err = Some EOF <-> r = []) /\
    len (v b') = len (v b) /\ out b' = out b /\ start b' = start b.
Proof.
  intros Hwf Hw. pose proof Hwf as ((? & ? & ?) & ?).
  set (tail := take (Z.to_nat (len (v b) - end_ b))
                 (drop (Z.to_nat (end_ b)) (contents (v b)))).
  assert (Hsl : slice_range (v b) (end_ b) (len (v b)) = Ok tail)
    by (apply slice_range_in; lia).
  assert (Htail : length tail = Z.to_nat (len (v b) - end_ b)).
  { unfold tail. rewrite length_take, length_drop. unfold len in *. lia. }
  unfold ReadFrom. rewrite Hsl. simpl mbind.
  destruct r as [|x r].
  - pose proof (Bytes_after_store b w tail 0 Hwf Hw ltac:(lia) ltac:(lia))
      as HB.
    exists 0%nat, (Some EOF). eexists. split; [reflexivity|].
    rewrite Nat.min_0_r. split; [done|]. split; [exact HB|].
    split_and!; try done. simpl. apply store_len; lia.
  - set (n := (length tail `min` length (x :: r))%nat).
    set (tail' := take n (x :: r) ++ drop n tail).
    assert (Htail' : length tail' = length tail).
    { unfold tail'. rewrite length_app, length_take, length_drop. lia. }
    pose proof (Bytes_after_store b w tail' n Hwf Hw ltac:(lia) ltac:(lia))
      as HB.
    assert (Htk : take n tail' = take n (x :: r)).
    { unfold tail'. rewrite take_app_le by (rewrite length_take; lia).
      rewrite take_take. f_equal. lia. }
    rewrite Htk in HB.
    assert (HRd : reader_Read (x :: r) tail
                  = (Z.of_nat n, None, tail', drop n (x :: r))).
    { unfold reader_Read, copy. fold n. fold tail'. by rewrite Nat2Z.id. }
    rewrite HRd.
    exists n, None. eexists. split; [reflexivity|].
    split; [lia|]. split; [exact HB|].
    split_and!; try done. simpl. apply store_len; lia.
Qed.

Lemma ReadFrom_spec_witness :
  let b := mkBuffer (Some [Byte.x01; Byte.x00; Byte.x00]) 0 1 false in
  let r := [Byte.x07; Byte.x08; Byte.x09] in
  let w := [Byte.x01] in
  exists n err b',
    ReadFrom r b = Ok (Z.of_nat n, err, b', drop n r) /\
    n = (Z.to_nat (len (v b) - end_ b) `min` length r)%nat /\
    Bytes b' = Ok (w ++ take n r) /\
    (err = Some EOF <-> r = []) /\
    len (v b') = len (v b) /\ out b' = out b /\ start b' = start b.
Proof.
  intros b r w. apply (ReadFrom_spec r b w).
  - unfold wf, window_inv, max_int32. vm_compute. intuition discriminate.
  - reflexivity.
Defined.

(** X18.  [ReadFullFrom(reader, size)], for [0 <= size] with [end + size]
    an [int32] and a reader that hands out its remaining bytes the way
    [bytes.Reader] does: room for [size] bytes is ensured first, then
    [min(size, remaining)] bytes are read and appended to the window.  The
    error is nil exactly when [size] bytes were there, [io.EOF] when none
    were and [size > 0], and [io.ErrUnexpectedEOF] when some but fewer than
    [size] were.  With room for [size] bytes behind [end] nothing is
    allocated and the bytes already in the window stay. *)
Theorem ReadFullFrom_spec r size b p w :
  wf b -> Bytes b = Ok w -> 0 <= size -> end_ b + size <= max_int32 ->
  exists n err b' p' w',
    ReadFullFrom r size b p = Ok (Z.of_nat n, err, b', p', drop n r) /\
    n = (Z.to_nat size `min` length r)%nat /\
    Bytes b' = Ok (w' ++ take n r) /\ length w' = length w /\
    (err = None <-> size <= Z.of_nat (length r)) /\
    (err = Some EOF <-> r = [] /\ 0 < size) /\
    (err = Some ErrUnexpectedEOF <->
     0 < Z.of_nat (length r) /\ Z.of_nat (length r) < size) /\
    end_ b + size <= len (v b') /\
    (end_ b + size <= len (v b) ->
     w' = w /\ p' = p /\ len (v b') = len (v b) /\ out b' = out b).
Proof.
  intros Hwf Hw Hsz Hmax. pose proof Hwf as ((? & ? & ?) & ?).
  assert (He : int32 (end_ b + size) = end_ b + size)
    by (apply int32_id; unfold max_int32 in *; lia).
  destruct (Require_cases (end_ b + size) b p Hwf Hmax)
    as (b1 & p1 & HR & Hwf1 & Hcap & Hs1 & He1 & Hfit & _ & _).
  destruct (Bytes_wf b1 Hwf1) as [HB1 Hl1].
  set (w1 := take (Z.to_nat (end_ b1 - start b1))
               (drop (Z.to_nat (start b1)) (contents (v b1)))) in *.
  destruct (wf_window b w Hwf Hw) as (_ & Hlw & _).
  set (buf := take (Z.to_nat (end_ b + size - end_ b1))
                (drop (Z.to_nat (end_ b1)) (contents (v b1)))).
  assert (Hsl : slice_range (v b1) (end_ b1) (end_ b + size) = Ok buf)
    by (apply slice_range_in; lia).
  assert (Hbuf : length buf = Z.to_nat size).
  { unfold buf. rewrite length_take, length_drop. unfold len in *. lia. }
  set (n := (Z.to_nat size `min` length r)%nat).
  set (buf' := take n r ++ drop n buf).
  assert (Hbuf' : length buf' = length buf).
  { unfold buf'. rewrite length_app, length_take, length_drop. lia. }
  assert (Htk : take n buf' = take n r).
  { unfold buf'. rewrite take_app_le by (rewrite length_take; lia).
    rewrite take_take. f_equal. lia. }
  pose proof (Bytes_after_store b1 w1 buf' n Hwf1 HB1 ltac:(lia) ltac:(lia))
    as HB.
  rewrite Htk in HB.
  set (err := if Z.of_nat n >=? Z.of_nat (length buf) then None
              else if 0 <? Z.of_nat n then Some ErrUnexpectedEOF
                   else Some EOF).
  assert (HRd : io_ReadFull r buf = (Z.of_nat n, err, buf', drop n r)).
  { unfold io_ReadFull, copy. rewrite Hbuf. fold n. fold buf'.
    unfold err. by rewrite Nat2Z.id, Hbuf. }
  unfold ReadFullFrom. rewrite He, HR, mbind_Ok. cbv beta iota.
  rewrite Hsl, mbind_Ok, HRd.
  exists n, err. eexists _, p1, w1. split; [reflexivity|].
  assert (Herr : (err = None <-> size <= Z.of_nat (length r)) /\
                 (err = Some EOF <-> r = [] /\ 0 < size) /\
                 (err = Some ErrUnexpectedEOF <->
                  0 < Z.of_nat (length r) /\ Z.of_nat (length r) < size)).
  { unfold err. rewrite Z.geb_leb.
    destruct (Z.leb_spec (Z.of_nat (length buf)) (Z.of_nat n)),
      (Z.ltb_spec 0 (Z.of_nat n));
      (split; [|split]); split; try done; try lia;
      try (intros [-> ?]; simpl in *; lia);
      try (intros _; split; [|lia]; destruct r; [done | simpl in *; lia]). }
  destruct Herr as (? & ? & ?).
  split_and!; try done; simpl; try lia.
  - rewrite store_len; lia.
  - intros Hroom. destruct (Hfit Hroom) as [-> ->].
    rewrite Hw in HB1. injection HB1 as <-.
    split_and!; try done. apply store_len; lia.
Qed.

Lemma ReadFullFrom_spec_witness :
  let b := mkBuffer (Some [Byte.x01; Byte.x00; Byte.x00]) 0 1 false in
  let r := [Byte.x07; Byte.x08; Byte.x09] in
  let w := [Byte.x01] in
  exists n err b' p' w',
    ReadFullFrom r 2 b [] = Ok (Z.of_nat n, err, b', p', drop n r) /\
    n = (Z.to_nat 2 `min` length r)%nat /\
    Bytes b' = Ok (w' ++ take n r) /\ length w' = length w /\
    (err = None <-> 2 <= Z.of_nat (length r)) /\
    (err = Some EOF <-> r = [] /\ 0 < 2) /\
    (err = Some ErrUnexpectedEOF <->
     0 < Z.of_nat (length r) /\ Z.of_nat (length r) < 2) /\
    end_ b + 2 <= len (v b') /\
    (end_ b + 2 <= len (v b) ->
     w' = w /\ p' = [] /\ len (v b') = len (v b) /\ out b' = out b).
Proof.
  intros b r w. apply (ReadFullFrom_spec r 2 b [] w).
  - unfold wf, window_inv, max_int32. vm_compute. intuition discriminate.
  - reflexivity.
  - lia.
  - vm_compute. discriminate.
Defined.

(** ** What reaches the pool *)

Lemma paid_same b p b' :
  out b' = out b -> (is_Some (v b') <-> is_Some (v b)) -> paid b p b' p.
Proof.
  intros Ho Hv. exists []. split; [done|].
  unfold nils_left, regions_left. rewrite Ho.
  destruct (v b) as [?|], (v b') as [?|]; simpl; try lia.
  - destruct Hv as [_ Hv]. destruct Hv as [? [=]]. eauto.
  - destruct Hv as [Hv _]. destruct Hv as [? [=]]. eauto.
Qed.

Lemma paid_out b p b' : out b' = true -> paid b p b' p.
Proof.
  intros Ho. exists []. split; [done|].
  unfold nils_left, regions_left. rewrite Ho. simpl. lia.
Qed.

Lemma regions_app a1 a2 : regions (a1 ++ a2) = (regions a1 + regions a2)%nat.
Proof. induction a1 as [|[?|] a1 IH]; simpl; lia. Qed.

Lemma nils_app a1 a2 : nils (a1 ++ a2) = (nils a1 + nils a2)%nat.
Proof. induction a1 as [|[?|] a1 IH]; simpl; lia. Qed.

Lemma length_regions_nils a : length a = (regions a + nils a)%nat.
Proof. induction a as [|[?|] a IH]; simpl; lia. Qed.

Lemma paid_trans b p b1 p1 b2 p2 :
  paid b p b1 p1 -> paid b1 p1 b2 p2 -> paid b p b2 p2.
Proof.
  intros (a1 & -> & ? & ?) (a2 & -> & ? & ?). exists (a2 ++ a1).
  rewrite app_assoc, nils_app, regions_app. split; [done|]. lia.
Qed.

Lemma store_is_Some s lo w : is_Some (store s lo w) <-> is_Some s.
Proof. destruct s; simpl; split; intros [? [=]]; eauto. Qed.

Lemma Require_paid n b p b' p' :
  Require n b p = Ok (b', p') -> paid b p b' p'.
Proof.
  unfold Require. intros H.
  destruct (_ >=? _).
  { inversion H; subst. by apply paid_same. }
  apply bind_Ok in H as (nb & _ & H).
  apply bind_Ok in H as (dst & _ & H).
  apply bind_Ok in H as (src & _ & H).
  destruct (out b) eqn:Ho; simpl in H; inversion H; subst; clear H.
  - by apply paid_out.
  - exists [store (v b) (start b) (copy dst src).2]. split; [done|].
    unfold nils_left, regions_left. rewrite Ho. simpl.
    destruct (v b); simpl; lia.
Qed.

Lemma slice_set_is_Some s i x s' :
  slice_set s i x = Ok s' -> is_Some s /\ is_Some s'.
Proof.
  unfold slice_set. destruct (Z.leb_spec 0 i); [|done].
  destruct (Z.ltb_spec i (len s)); [|done]. simpl. intros [= <-].
  split; [|eauto]. destruct s; [eauto|]. unfold len in *. simpl in *. lia.
Qed.

(** Each call puts at most what the buffer still may. *)
Lemma step_paid o b p b' p' :
  step o (b, p) = Ok (b', p') -> paid b p b' p'.
Proof.
  intros H. destruct o; simpl in H.
  - unfold Release_at in H. destruct (v b) as [r|] eqn:Hv.
    + destruct (out b) eqn:Ho; inversion H; subst; clear H.
      * by apply paid_same.
      * exists [Some r]. split; [done|].
        unfold nils_left, regions_left. simpl. rewrite Ho, Hv. simpl. lia.
    + inversion H; subst. by apply paid_same.
  - inversion H; subst. by apply paid_same.
  - unfold SetByte in H.
    apply bind_Ok in H as (b1 & H1 & H).
    apply bind_Ok in H1 as (v' & Hv' & H1).
    inversion H1; subst. inversion H; subst.
    apply slice_set_is_Some in Hv' as [? ?]. by apply paid_same.
  - by eapply Require_paid.
  - unfold Extend in H.
    apply bind_Ok in H as ([[ext b1] p1] & H1 & H).
    apply bind_Ok in H1 as ([b2 p2] & HR & H1).
    apply bind_Ok in H1 as (ext' & _ & H1).
    inversion H1; subst. inversion H; subst.
    eapply paid_trans; [by eapply Require_paid|]. by apply paid_same.
  - unfold Resize in H.
    apply bind_Ok in H as (b1 & H1 & H).
    destruct (_ <? _); [done|]. inversion H1; subst. inversion H; subst.
    by apply paid_same.
  - inversion H; subst. by apply paid_same.
  - unfold Write in H.
    apply bind_Ok in H as ([[[n e] b1] p1] & H1 & H).
    apply bind_Ok in H1 as ([b2 p2] & HR & H1).
    apply bind_Ok in H1 as (tail & _ & H1).
    destruct (copy tail data). inversion H1; subst. inversion H; subst.
    eapply paid_trans; [by eapply Require_paid|].
    apply paid_same; [done|]. apply store_is_Some.
  - unfold WriteByte in H.
    apply bind_Ok in H as ([e b1] & H1 & H).
    destruct (IsFull (Some b)).
    + inversion H1; subst. inversion H; subst. by apply paid_same.
    + apply bind_Ok in H1 as (v' & Hv' & H1).
      inversion H1; subst. inversion H; subst.
      apply slice_set_is_Some in Hv' as [? ?]. by apply paid_same.
  - unfold WriteString, Write in H.
    apply bind_Ok in H as ([[[n e] b1] p1] & H1 & H).
    apply bind_Ok in H1 as ([b2 p2] & HR & H1).
    apply bind_Ok in H1 as (tail & _ & H1).
    destruct (copy tail s). inversion H1; subst. inversion H; subst.
    eapply paid_trans; [by eapply Require_paid|].
    apply paid_same; [done|]. apply store_is_Some.
  - unfold Read in H.
    apply bind_Ok in H as ([[[n e] d] b1] & H1 & H).
    destruct (Len (Some b) =? 0).
    + inversion H1; subst. inversion H; subst. by apply paid_same.
    + apply bind_Ok in H1 as (src & _ & H1).
      destruct (copy data src). destruct (_ =? _);
        inversion H1; subst; inversion H; subst; by apply paid_same.
  - unfold ReadFrom in H.
    apply bind_Ok in H as ([[[n e] b1] r1] & H1 & H).
    apply bind_Ok in H1 as (tail & _ & H1).
    destruct (reader_Read reader tail) as [[[? ?] ?] ?].
    inversion H1; subst. inversion H; subst.
    apply paid_same; [done|]. apply store_is_Some.
  - unfold ReadFullFrom in H.
    apply bind_Ok in H as ([[[[n e] b1] p1] r1] & H1 & H).
    apply bind_Ok in H1 as ([b2 p2] & HR & H1).
    apply bind_Ok in H1 as (buf & _ & H1).
    destruct (io_ReadFull reader buf) as [[[? ?] ?] ?].
    inversion H1; subst. inversion H; subst.
    eapply paid_trans; [by eapply Require_paid|].
    apply paid_same; [done|]. apply store_is_Some.
Qed.

Lemma run_paid os : forall b p b' p',
  run os (b, p) = Ok (b', p') -> paid b p b' p'.
Proof.
  induction os as [|o os IH]; intros b p b' p' H; simpl in H.
  - inversion H; subst. by apply paid_same.
  - apply bind_Ok in H as ([b1 p1] & H1 & H).
    eapply paid_trans; [by eapply step_paid | by apply IH].
Qed.

(** X19.  Over every sequence of calls on a buffer, whatever their
    arguments, the pool only gains slices on top of what it held, and it
    gains few: no slice at all from a buffer that is outside the pool, and
    otherwise at most one region, so no region is ever handed back twice,
    and at most one nil slice besides (from growing a handle that was
    released).  A buffer that holds no region hands back no region. *)
Theorem pool_receives_once os b p b' p' :
  run os (b, p) = Ok (b', p') ->
  exists added,
    p' = added ++ p /\
    (regions added <= 1)%nat /\ (nils added <= 1)%nat /\
    length added = (regions added + nils added)%nat /\
    (out b = true -> added = []) /\
    (v b = None -> regions added = 0%nat).
Proof.
  intros H. destruct (run_paid os b p b' p' H) as (added & -> & Hr & Hn).
  exists added. split; [done|].
  pose proof (length_regions_nils added) as Hlen.
  unfold nils_left, regions_left in *.
  destruct (out b); [|destruct (v b)].
  - replace added with (@nil slice)
      by (destruct added; [done | simpl in *; lia]).
    split_and!; simpl; try done; lia.
  - split_and!; try done; lia.
  - split_and!; try done; lia.
Qed.

Lemma pool_receives_once_witness :
  exists added,
    [None; Some [Byte.x01; Byte.x02]] = added ++ @nil slice /\
    (regions added <= 1)%nat /\ (nils added <= 1)%nat /\
    length added = (regions added + nils added)%nat /\
    (false = true -> added = []) /\
    (Some [Byte.x01; Byte.x02] = None -> regions added = 0%nat).
Proof.
  apply (pool_receives_once
           [OpRelease; OpRelease; OpWrite [Byte.x07]; OpRelease]
           (mkBuffer (Some [Byte.x01; Byte.x02]) 0 2 false) []
           (mkBuffer (Some [Byte.x07]) 0 1 true)).
  vm_compute. reflexivity.
Defined.

(** ** Buffers made from data *)

(** X20.  [From(data)], for data whose length is an [int32] and a pool of
    regions of the fixed size: data of at most 8192 bytes goes into a
    region taken from the pool and the buffer is recyclable; longer data
    goes into a region of exactly its length, outside the pool, which is
    left alone, and that buffer is full.  Either way [Bytes()] is
    [data]. *)
Theorem From_shape data p :
  pool_ok p -> Z.of_nat (length data) <= max_int32 ->
  exists b p',
    From data p = Ok (b, p') /\
    Bytes b = Ok data /\
    (Z.of_nat (length data) <= Size ->
     out b = false /\ len (v b) = Size /\ p' = snd (pool_Get p)) /\
    (Size < Z.of_nat (length data) ->
     out b = true /\ len (v b) = Z.of_nat (length data) /\ p' = p /\
     IsFull (Some b) = true).
Proof.
  intros Hp Hmax.
  assert (Hd : int32 (Z.of_nat (length data)) = Z.of_nat (length data)).
  { apply int32_id. unfold max_int32 in *. lia. }
  assert (Hget : exists b0 p0,
             Get (Z.of_nat (length data)) p = Ok (b0, p0) /\
             wf b0 /\ Bytes b0 = Ok [] /\ end_ b0 = 0 /\
             Z.of_nat (length data) <= len (v b0) /\
             (Z.of_nat (length data) <= Size ->
              out b0 = false /\ len (v b0) = Size /\
              p0 = snd (pool_Get p)) /\
             (Size < Z.of_nat (length data) ->
              out b0 = true /\ len (v b0) = Z.of_nat (length data) /\
              p0 = p)).
  { unfold Get.
    destruct (Z.leb_spec (Z.of_nat (length data)) Size) as [Hle|Hgt].
    - pose proof (New_wf p Hp) as Hwf0.
      pose proof (pool_Get_ok p Hp) as Hlen.
      exists (fst (New p)), (snd (New p)).
      split; [by destruct (New p)|]. split; [done|].
      unfold New in *. destruct (pool_Get p) as [r0 p0]. simpl in *.
      split; [by destruct (Bytes_wf _ Hwf0) as [-> _]|].
      split; [done|]. split; [lia|]. split; [done|lia].
    - unfold make. destruct (Z.ltb_spec (Z.of_nat (length data)) 0); [lia|].
      rewrite mbind_Ok. eexists _, _. split; [reflexivity|].
      assert (Hl0 : len (Some (replicate (Z.to_nat (Z.of_nat (length data)))
                                 Byte.x00))
                    = Z.of_nat (length data)).
      { rewrite len_Some, length_replicate. lia. }
      assert (Hwf0 : wf (mkBuffer
                           (Some (replicate (Z.to_nat (Z.of_nat (length data)))
                                    Byte.x00)) 0 0 true)).
      { unfold wf, window_inv. simpl v. rewrite Hl0. simpl. lia. }
      split; [done|]. split; [by destruct (Bytes_wf _ Hwf0) as [-> _]|].
      simpl v. rewrite Hl0. simpl.
      split; [done|]. split; [lia|]. split; [lia|done]. }
  destruct Hget as (b0 & p0 & HG & Hwf0 & HB0 & He0 & Hfit & Hsmall & Hbig).
  destruct (Write_cases data b0 p0 [] Hwf0 HB0 ltac:(lia))
    as (b & p' & w' & HW & HB & Hw' & Hs & He & Hwf & Hroom & _).
  destruct Hroom as (-> & -> & Ho & Hl); [lia|].
  exists b, p0. split.
  { unfold From. rewrite Hd, HG, mbind_Ok. cbv beta iota.
    by rewrite HW. }
  split; [done|]. split.
  - intros Hle. destruct (Hsmall Hle) as (? & ? & ?).
    split_and!; congruence.
  - intros Hgt. destruct (Hbig Hgt) as (? & ? & ?).
    split_and!; try congruence.
    apply (IsFull_wf b Hwf). lia.
Qed.

Lemma From_shape_witness :
  let data := [Byte.x01; Byte.x02; Byte.x03] in
  exists b p',
    From data [] = Ok (b, p') /\
    Bytes b = Ok data /\
    (Z.of_nat (length data) <= Size ->
     out b = false /\ len (v b) = Size /\ p' = snd (pool_Get [])) /\
    (Size < Z.of_nat (length data) ->
     out b = true /\ len (v b) = Z.of_nat (length data) /\ p' = [] /\
     IsFull (Some b) = true).
Proof.
  intros data. apply (From_shape data []).
  - apply Forall_nil_2.
  - vm_compute. discriminate.
Defined.

(** ** The round trip beyond the [int32] range *)

(** [Write] when [Require] finds nothing to do: the data goes behind [end]
    as far as the region has room.  This is also what happens when
    [end + len(data)] wraps around in [int32]. *)
Lemma Write_no_growth data b p w :
  wf b -> Bytes b = Ok w ->
  int32 (end_ b + int32 (Z.of_nat (length data))) <= len (v b) ->
  exists b',
    Write data b p
      = Ok (Z.of_nat (Z.to_nat (len (v b) - end_ b) `min` length data),
            None, b', p) /\
    Bytes b'
      = Ok (w ++ take (Z.to_nat (len (v b) - end_ b) `min` length data) data) /\
    wf b' /\ start b' = start b /\
    end_ b'
      = end_ b + Z.of_nat (Z.to_nat (len (v b) - end_ b) `min` length data).
Proof.
  intros Hwf Hw Hreq. pose proof Hwf as ((? & ? & ?) & ?).
  set (tail := take (Z.to_nat (len (v b) - end_ b))
                 (drop (Z.to_nat (end_ b)) (contents (v b)))).
  assert (Hsl : slice_range (v b) (end_ b) (len (v b)) = Ok tail)
    by (apply slice_range_in; lia).
  assert (Htail : length tail = Z.to_nat (len (v b) - end_ b)).
  { unfold tail. rewrite length_take, length_drop. unfold len in *. lia. }
  set (m := (Z.to_nat (len (v b) - end_ b) `min` length data)%nat).
  set (tail' := take m data ++ drop m tail).
  assert (Htail' : length tail' = length tail).
  { unfold tail'. rewrite length_app, length_take, length_drop. lia. }
  assert (Htk : take m tail' = take m data).
  { unfold tail'. rewrite take_app_le by (rewrite length_take; lia).
    rewrite take_take. f_equal. lia. }
  pose proof (Bytes_after_store b w tail' m Hwf Hw ltac:(lia) ltac:(lia))
    as HB.
  rewrite Htk in HB.
  pose proof (append_wf b tail' (Z.of_nat m) Hwf ltac:(lia) ltac:(lia))
    as Hwf'.
  assert (Hcopy : copy tail data = (Z.of_nat m, tail')).
  { unfold copy. rewrite Htail. by fold m. }
  unfold Write. rewrite (Require_fits _ b p Hwf Hreq), mbind_Ok.
  cbv beta iota. rewrite Hsl, mbind_Ok, Hcopy.
  eexists. split; [reflexivity|]. split; [exact HB|].
  split; [exact Hwf'|]. split; [done|]. simpl.
  rewrite (int32_id (Z.of_nat m)) by (unfold max_int32 in *; lia).
  apply int32_id. unfold max_int32 in *. lia.
Qed.

(** [From] and [Read] on data of [2^31] bytes, whatever number [N] stands
    for that length. *)
Lemma From_Read_short (N : nat) :
  Z.of_nat N = 2 ^ 31 ->
  exists b p' n err dst' b',
    From (replicate N Byte.x01) [] = Ok (b, p') /\
    Len (Some b) = Size /\
    Read (replicate N Byte.x00) b = Ok (n, err, dst', b') /\
    n = Size /\
    dst' <> replicate N Byte.x01.
Proof.
  intros HN.
  assert (HSz : 0 < Size /\ Size < 2 ^ 31) by (unfold Size; lia).
  pose proof Size_nat as HK.
  remember (Z.to_nat Size) as K eqn:HKdef. clear HKdef.
  assert (Hi : int32 (2 ^ 31) = - 2 ^ 31) by (vm_compute; reflexivity).
  assert (Hi0 : int32 (0 + - 2 ^ 31) = - 2 ^ 31) by (vm_compute; reflexivity).
  (* the buffer that [Get] hands out is a pool buffer *)
  pose proof (New_wf [] (Forall_nil_2 _)) as Hwf0.
  assert (Hs0 : start (fst (New [])) = 0) by reflexivity.
  assert (He0 : end_ (fst (New [])) = 0) by reflexivity.
  assert (Hl0 : len (v (fst (New []))) = Size).
  { change (len (fst (pool_Get [])) = Size).
    apply pool_Get_ok, Forall_nil_2. }
  assert (HGet : Get (- 2 ^ 31) [] = Ok (New [])).
  { unfold Get. destruct (Z.leb_spec (- 2 ^ 31) Size); [done | lia]. }
  destruct (New []) as [b0 p0]. cbn [fst] in Hwf0, Hs0, He0, Hl0.
  assert (HB0 : Bytes b0 = Ok []).
  { destruct (Bytes_wf b0 Hwf0) as [-> _]. by rewrite Hs0, He0. }
  (* [Write] asks [Require] for a negative length and writes short *)
  destruct (Write_no_growth (replicate N Byte.x01) b0 p0 [] Hwf0 HB0)
    as (b & HW & HB & Hwf & Hs & He).
  { rewrite length_replicate, HN, Hi, He0, Hi0. lia. }
  rewrite length_replicate, Hl0, He0, Z.sub_0_r in HW, HB, He.
  replace (Z.to_nat Size `min` N)%nat with K in * by lia.
  rewrite take_replicate, app_nil_l in HB.
  replace (K `min` N)%nat with K in * by lia.
  assert (HL : Len (Some b) = Size) by (rewrite (Len_wf b Hwf); lia).
  destruct (Read_call (replicate N Byte.x00) b _ Hwf HB)
    as (n & err & dst' & b' & HR & _ & _ & Hpos).
  destruct Hpos as (_ & Hn & Hdst & _); [lia|].
  rewrite length_replicate, HL in Hn.
  assert (Hn' : Z.to_nat n = K) by lia.
  exists b, p0, n, err, dst', b'.
  split. { unfold From. rewrite length_replicate, HN, Hi, HGet, mbind_Ok.
           cbv beta iota. by rewrite HW. }
  split; [done|]. split; [done|]. split; [lia|].
  rewrite Hdst, Hn'. intros Heq.
  assert (HlenK : length (take K (replicate K Byte.x01)) = K).
  { rewrite length_take, length_replicate. lia. }
  apply (f_equal (fun l => l !! K)) in Heq.
  rewrite lookup_app_r in Heq by lia.
  rewrite HlenK, Nat.sub_diag, lookup_drop in Heq.
  rewrite !lookup_replicate_2 in Heq by lia. discriminate.
Qed.

(** C6 (as stated, false).  For data of [2^31] bytes [From] converts the
    length to the [int32] [-2^31], takes a pool buffer, and its [Write]
    asks [Require] for a negative length: nothing grows, and 8192 of the
    bytes are kept.  A [Read] into a destination of the data's length
    copies back those 8192 bytes only, so the destination does not hold
    the data. *)
Lemma From_Read_beyond_int32 :
  exists b p' n err dst' b',
    From (replicate (Z.to_nat (2 ^ 31)) Byte.x01) [] = Ok (b, p') /\
    Len (Some b) = Size /\
    Read (replicate (Z.to_nat (2 ^ 31)) Byte.x00) b = Ok (n, err, dst', b') /\
    n = Size /\
    dst' <> replicate (Z.to_nat (2 ^ 31)) Byte.x01.
Proof.
  apply (From_Read_short (Z.to_nat (2 ^ 31))). apply Z2Nat.id. lia.
Qed.
